(** * SimplePithonProjects: the trivia quiz and the password generator

    A shallow embedding of [triviaGame/main.py] and
    [passwordGenerator/main.py], and the properties of both that the
    specification states.

    Conventions of the embedding:
    - a Python [str] is a [string]; console and form input is taken to be
      ASCII text, so the only digits are the characters 0 to 9 and the only
      cased letters are A to Z and a to z;
    - a Python [int] is a [Z];
    - [print] and [input] prompts become output events, a line typed by the
      user is an input of the step function;
    - [time.sleep] is not modelled. *)

From Stdlib Require Import ZArith Ascii String List Permutation Lia Bool.
From Stdlib Require Import DecimalString DecimalPos.
From stdpp Require Import base list strings.
Import ListNotations.
Local Open Scope string_scope.
Local Open Scope list_scope.
Local Open Scope Z_scope.

(** ** Python string primitives used by both programs *)
Module PyStr.

(** The characters 0 to 9. *)
Definition is_digit_char (c : ascii) : bool :=
  let n := nat_of_ascii c in ((48 <=? n) && (n <=? 57))%nat.

Fixpoint all_digits (s : string) : bool :=
  match s with
  | EmptyString => true
  | String c s' => is_digit_char c && all_digits s'
  end.

(** [str.isdigit()]: at least one character, and every character a digit. *)
Definition isdigit (s : string) : bool :=
  match s with
  | EmptyString => false
  | _ => all_digits s
  end.

Definition digit_value (c : ascii) : Z := Z.of_nat (nat_of_ascii c) - 48.

Fixpoint int_acc (acc : Z) (s : string) : Z :=
  match s with
  | EmptyString => acc
  | String c s' => int_acc (10 * acc + digit_value c) s'
  end.

(** [int(s)] for a string that passed [isdigit]: the source calls [int] only
    behind that guard, where it is the value of the decimal numeral. *)
Definition int (s : string) : Z := int_acc 0 s.

Definition lower_char (c : ascii) : ascii :=
  let n := nat_of_ascii c in
  if ((65 <=? n) && (n <=? 90))%nat then ascii_of_nat (n + 32) else c.

(** [str.lower()]. *)
Fixpoint lower (s : string) : string :=
  match s with
  | EmptyString => EmptyString
  | String c s' => String (lower_char c) (lower s')
  end.

(** The ASCII characters for which [str.isspace()] holds. *)
Definition is_space_char (c : ascii) : bool :=
  let n := nat_of_ascii c in
  (((9 <=? n) && (n <=? 13)) || ((28 <=? n) && (n <=? 32)))%nat.

Fixpoint lstrip (s : string) : string :=
  match s with
  | EmptyString => EmptyString
  | String c s' => if is_space_char c then lstrip s' else s
  end.

Fixpoint rstrip (s : string) : string :=
  match s with
  | EmptyString => EmptyString
  | String c s' =>
      match rstrip s' with
      | EmptyString => if is_space_char c then EmptyString else String c EmptyString
      | t => String c t
      end
  end.

(** [str.strip()]. *)
Definition strip (s : string) : string := rstrip (lstrip s).

(** [len(s)] as a Python integer. *)
Definition len {A} (l : list A) : Z := Z.of_nat (List.length l).

End PyStr.

(** ** triviaGame/main.py *)
Module Trivia.
Import PyStr.

Definition LIVES : Z := 3.

(** One record of the question file. *)
Record Question := mkQuestion {
  question : string;
  options : list string;
  answer : string;
  difficulty : string
}.

(** What the program writes to the console. *)
Inductive output :=
| PrintQuestion (idx : Z) (text : string) (opts : list string)
| PromptAnswer
| PrintEnterValid
| PrintCorrect
| PrintWrong (correct_answer : string)
| PrintLivesLeft (n : Z)
| PromptAgain (first : bool)
| PrintInvalidAgain
| PrintThanks.

(** The three values [check_answer] returns: [True], [False] and the
    string that marks an invalid input. *)
Inductive verdict := VTrue | VFalse | VInvalid.

(** Python truth value of a verdict: a non-empty string is true. *)
Definition truthy (v : verdict) : bool :=
  match v with VFalse => false | _ => true end.

Definition is_invalid (v : verdict) : bool :=
  match v with VInvalid => true | _ => false end.

Definition has_difficulty (d : string) (q : Question) : bool :=
  bool_decide (lower (difficulty q) = d).

(** [categorize_questions], on the list [load_questions] returned. *)
Definition categorize_questions (questions : list Question)
  : list Question * list Question * list Question :=
  let easy_questions := List.filter (has_difficulty "easy") questions in
  let medium_questions := List.filter (has_difficulty "medium") questions in
  let hard_questions := List.filter (has_difficulty "hard") questions in
  (easy_questions, medium_questions, hard_questions).

(** The first two lines of [game]. *)
Definition total_questions (questions : list Question) : list Question :=
  let '(easy, medium, hard) := categorize_questions questions in
  easy ++ medium ++ hard.

(** The guard of [check_answer]: the input is no option number. *)
Definition not_an_option (user_answer : string) (opts : list string) : bool :=
  negb (isdigit user_answer)
  || (len opts <? int user_answer)
  || (int user_answer <? 1).

Definition check_answer (user_answer correct_answer : string)
    (opts : list string) : verdict * list output :=
  if not_an_option user_answer opts then
    (VInvalid, [PrintEnterValid])
  else
    let user_answer_text :=
      nth (Z.to_nat (int user_answer - 1)) opts EmptyString in
    if bool_decide (lower user_answer_text = lower correct_answer) then
      (VTrue, [PrintCorrect])
    else
      (VFalse, [PrintWrong correct_answer]).

Definition print_question (idx : Z) (current_question : string)
    (current_options : list string) : list output :=
  [PrintQuestion idx current_question current_options].

(** [take_answer] lower-cases the line it read. *)
Definition take_answer (line : string) : string := lower line.

(** *** The session as a machine that reads one line at a time

    Every point at which [game] blocks is an [input] call, so the run is a
    sequence of steps, one per line the user types. A [frame] holds the
    local variables of one activation of [game]; [game] calling itself on
    a restart pushes the caller's frame, suspended at line 80. *)
Record frame := mkFrame {
  lives : Z;
  question_number : Z;
  current : Question;
  pending : list Question
}.

(** The three [input] calls of [game]: [take_answer] at line 67, the one
    inside the retry loop at line 91, and the restart prompt at lines 74
    and 78. *)
Inductive point := FirstAnswer | RetryAnswer | AgainAnswer.

Inductive machine :=
| Waiting (pt : point) (fr : frame) (callers : list frame)
| Finished.

Definition emit (out : list output) (r : machine * list output)
  : machine * list output :=
  (r.1, out ++ r.2).

(** Lines 62 to 67: show the question and wait for the answer. *)
Definition ask (pt : point) (fr : frame) (callers : list frame)
  : machine * list output :=
  (Waiting pt fr callers,
   print_question (question_number fr) (lower (question (current fr)))
     (options (current fr)) ++ [PromptAnswer]).

(** The head of the [for] loop: the next question if there is one, else
    what follows the return of this activation. *)
Definition for_loop (after : machine * list output) (lives qn : Z)
    (qs : list Question) (callers : list frame) : machine * list output :=
  match qs with
  | q :: rest => ask FirstAnswer (mkFrame lives qn q rest) callers
  | [] => after
  end.

(** An activation returns. Its caller, if any, continues after line 80 with
    [is_correct] false: the loop at line 89 is not entered, its [else]
    adds one to the question number, and the [for] loop goes on. *)
Fixpoint return_to (callers : list frame) : machine * list output :=
  match callers with
  | [] => (Finished, [])
  | fr :: callers' =>
      for_loop (return_to callers') (lives fr) (question_number fr + 1)
        (pending fr) callers'
  end.

Definition next_question (lives qn : Z) (qs : list Question)
    (callers : list frame) : machine * list output :=
  for_loop (return_to callers) lives qn qs callers.

Section Session.
(** What [load_questions] reads; the file does not change during a run. *)
Variable questions : list Question.

(** [game(lives)], entered with the given suspended callers. *)
Definition game (lives : Z) (callers : list frame) : machine * list output :=
  let question_number := 1 in
  next_question lives question_number (total_questions questions) callers.

Definition step (m : machine) (line : string) : machine * list output :=
  match m with
  | Finished => (Finished, [])
  | Waiting FirstAnswer fr callers =>
      (* lines 67 and 68 *)
      let current_answer := lower (answer (current fr)) in
      let user_answer := take_answer line in
      let '(is_correct, out) :=
        check_answer user_answer current_answer (options (current fr)) in
      if negb (truthy is_correct) then
        (* lines 70 to 72 *)
        let lives' := lives fr - 1 in
        let qn' := question_number fr + 1 in
        if lives' =? 0 then
          (* line 74: the restart prompt *)
          (Waiting AgainAnswer (mkFrame lives' qn' (current fr) (pending fr)) callers,
           out ++ [PromptAgain true])
        else
          (* lines 86 and 87: continue *)
          emit (out ++ [PrintLivesLeft lives'])
            (next_question lives' qn' (pending fr) callers)
      else if is_invalid is_correct then
        (* lines 89 to 91: into the retry loop *)
        emit out (ask RetryAnswer fr callers)
      else
        (* lines 89, 94 and 95: the loop is not entered, its else runs *)
        emit out
          (next_question (lives fr) (question_number fr + 1) (pending fr) callers)
  | Waiting RetryAnswer fr callers =>
      (* lines 91 and 92 *)
      let current_answer := lower (answer (current fr)) in
      let user_answer := take_answer line in
      let '(is_correct, out) :=
        check_answer user_answer current_answer (options (current fr)) in
      if is_invalid is_correct then
        (* lines 89 to 91: once more round the retry loop *)
        emit out (ask RetryAnswer fr callers)
      else
        (* lines 94 and 95: the loop is left, its else runs *)
        emit out
          (next_question (lives fr) (question_number fr + 1) (pending fr) callers)
  | Waiting AgainAnswer fr callers =>
      (* lines 74 and 78 *)
      let again := lower line in
      if negb (bool_decide (again = "y") || bool_decide (again = "n")) then
        (* lines 75 to 78 *)
        (Waiting AgainAnswer fr callers, [PrintInvalidAgain; PromptAgain false])
      else if bool_decide (again = "y") then
        (* line 80: game() with the default number of lives *)
        game LIVES (fr :: callers)
      else
        (* lines 82 and 83: break out of the for loop *)
        emit [PrintThanks] (return_to callers)
  end.

(** The program: [game(LIVES)] from the last lines of the file. *)
Definition main : machine * list output := game LIVES [].

Fixpoint run_from (m : machine) (lines : list string) : machine * list output :=
  match lines with
  | [] => (m, [])
  | line :: lines' =>
      let '(m', out) := step m line in emit out (run_from m' lines')
  end.

Definition run (lines : list string) : machine * list output :=
  emit main.2 (run_from main.1 lines).

(** The states a run goes through. *)
Inductive reachable : machine -> Prop :=
| reachable_main : reachable main.1
| reachable_step m line : reachable m -> reachable (step m line).1.

End Session.

(** The lives counter of the running activation. *)
Definition lives_of (m : machine) : option Z :=
  match m with
  | Waiting _ fr _ => Some (lives fr)
  | Finished => None
  end.

(** *** Notions the properties are stated with *)

(** The line names one of the options: a decimal numeral whose value lies
    between 1 and the number of options. *)
Definition option_number (line : string) (opts : list string) : Prop :=
  isdigit line = true /\ 1 <= int line <= len opts.

(** The verdict [game] gets for a typed line on a question. *)
Definition verdict_on (q : Question) (line : string) : verdict :=
  (check_answer (take_answer line) (lower (answer q)) (options q)).1.

Definition same_ignoring_case (a b : string) : Prop := lower a = lower b.

#[global] Instance same_ignoring_case_dec a b : Decision (same_ignoring_case a b).
Proof. unfold same_ignoring_case. apply _. Defined.

(** The questions of one difficulty, in file order. *)
Definition of_difficulty (d : string) (questions : list Question)
  : list Question :=
  List.filter (fun q => bool_decide (same_ignoring_case (difficulty q) d))
    questions.





(** *** A small question file *)
Module Sample.
Definition capital : Question :=
  mkQuestion "Capital of France?" ["Paris"; "London"; "Berlin"] "Paris" "easy".
Definition sum : Question :=
  mkQuestion "2 + 2?" ["3"; "4"] "4" "Easy".
Definition planet : Question :=
  mkQuestion "Largest planet?" ["Mars"; "Jupiter"] "Jupiter" "medium".
Definition ocean : Question :=
  mkQuestion "Largest ocean?" ["Pacific"; "Atlantic"] "Pacific" "HARD".
Definition river : Question :=
  mkQuestion "Longest river?" ["Nile"; "Rhine"] "Nile" "hard".
Definition riddle : Question :=
  mkQuestion "Riddle?" ["yes"; "no"] "yes" "expert".

(** The file lists them across the categories, with one record of an
    unknown difficulty. *)
Definition file : list Question :=
  [ocean; capital; riddle; planet; sum; river].
End Sample.

(** *** Further notions *)

(** The difficulty is one of the three the program files questions under. *)
Definition known_difficulty (q : Question) : bool :=
  has_difficulty "easy" q || has_difficulty "medium" q || has_difficulty "hard" q.

(** The machine with further suspended activations at the bottom of its
    stack. *)
Definition above (below : list frame) (m : machine) : machine :=
  match m with
  | Waiting pt fr callers => Waiting pt fr (callers ++ below)
  | Finished => Finished
  end.

(** No line of the input is a yes, in whatever case. *)
Definition never_restarts (lines : list string) : Prop :=
  Forall (fun line => lower line <> "y") lines.

(** The state of a program that was never restarted: one activation, which
    stands at the restart prompt exactly when it has no life left, and whose
    question number counts the questions shown. *)
Definition first_session (questions : list Question) (m : machine) : Prop :=
  match m with
  | Finished => True
  | Waiting pt fr callers =>
      callers = [] /\
      exists shown,
        total_questions questions = shown ++ current fr :: pending fr /\
        match pt with
        | AgainAnswer => lives fr = 0 /\ question_number fr = len shown + 2
        | _ => 1 <= lives fr <= LIVES /\ question_number fr = len shown + 1
        end
  end.

(** What holds of the lives in every state: no activation has more than it
    started with, the one at the restart prompt has none, and neither has
    any suspended one. *)
Definition lives_capped (m : machine) : Prop :=
  match m with
  | Finished => True
  | Waiting pt fr callers =>
      lives fr <= LIVES /\
      (pt = AgainAnswer -> lives fr = 0) /\
      Forall (fun c => lives c = 0) callers
  end.

(** *** The text on the console *)

(** [str(n)], as an f-string formats an integer. *)
Definition str (n : Z) : string := NilZero.string_of_int (Z.to_int n).

(** The loop of [print_question]: one line per option, numbered from 1. *)
Definition option_lines (current_options : list string) : list string :=
  imap (fun i o => str (Z.of_nat i + 1) +:+ ". " +:+ o) current_options.

(** What an output event puts on the console, piece by piece. *)
Definition console_lines (o : output) : list string :=
  match o with
  | PrintQuestion idx text opts =>
      ["Question number " +:+ str idx +:+ ":"; text; " the options are:"]
        ++ option_lines opts
  | PromptAnswer => ["Enter your answer: "]
  | PrintEnterValid => ["Enter a valid answer: "]
  | PrintCorrect => ["Correct!"]
  | PrintWrong correct_answer =>
      ["Wrong! The correct answer is " +:+ correct_answer]
  | PrintLivesLeft n => ["You have " +:+ str n +:+ " lives left."]
  | PromptAgain true => ["You lost!"; "Do you want to play again? (y/n): "]
  | PromptAgain false => ["Do you want to play again? (y/n): "]
  | PrintInvalidAgain => ["invalid input, try again:"]
  | PrintThanks => ["Thanks for playing!"]
  end.

End Trivia.

(** ** passwordGenerator/main.py *)
Module Password.
Import PyStr.

(** *** Constants *)
Definition NUMBERS : string := "0123456789".
(** [string.punctuation]; its second character is the double quote. *)
Definition SYMBOLS : string :=
  String "!" (String (ascii_of_nat 34) "#$%&'()*+,-./:;<=>?@[\]^_`{|}~").
Definition UPPERCASE_LETTERS : string := "ABCDEFGHIJKLMNOPQRSTUVWXYZ".
Definition LOWERCASE_LETTERS : string := "abcdefghijklmnopqrstuvwxyz".
Definition MIN_PASSWORD_LENGTH : Z := 8.
Definition MAX_PASSWORD_LENGTH : Z := 128.

Definition ERROR_MESSAGE_INVALID_LENGTH : string :=
  "The password length must be a positive number.".
Definition ERROR_MESSAGE_TOO_LARGE : string :=
  "The password length must be at most 128 characters.".
Definition ERROR_MESSAGE_MIN_LENGTH : string :=
  "The password must be at least 8 characters long.".
Definition ERROR_MESSAGE_NO_CHARSETS : string :=
  "Please select at least one character set.".
Definition ERROR_MESSAGE_GROUP_MISMATCH : string :=
  "Password length must be at least as many as the selected character groups.".
Definition ERROR_MESSAGE_EMPTY_LENGTH : string :=
  "Please provide a valid password length.".

(** The tk variables of the form. *)
Record form := mkForm {
  password_length : string;
  include_numbers : bool;
  include_symbols : bool;
  include_uppercase_letters : bool;
  include_lowercase_letters : bool;
  generated_password : string
}.

Definition set_generated_password (f : form) (pw : string) : form :=
  {| password_length := password_length f;
     include_numbers := include_numbers f;
     include_symbols := include_symbols f;
     include_uppercase_letters := include_uppercase_letters f;
     include_lowercase_letters := include_lowercase_letters f;
     generated_password := pw |}.

(** A [messagebox.showerror] call. *)
Inductive dialog := ShowError (title message : string).

Definition show_error_message (title message : string) : list dialog :=
  [ShowError title message].

(** *** The random module

    A computation draws raw numbers from a source, one after the other,
    and may raise. Every draw below [n] is a possible result of the real
    generator, and every result of the real generator is the draw of some
    source. *)
Definition source := nat -> nat.
Definition Rand (A : Type) := source -> option (A * source).

Definition ret {A} (a : A) : Rand A := fun src => Some (a, src).
Definition raise {A} : Rand A := fun _ => None.
Definition bind {A B} (m : Rand A) (k : A -> Rand B) : Rand B :=
  fun src => match m src with
             | Some (a, src') => k a src'
             | None => None
             end.

Notation "x <- m ;; k" := (bind m (fun x => k))
  (at level 100, m at next level, right associativity).

(** [_randbelow(n)] for positive [n]; also the index
    [floor(random() * n)] that [choices] computes. *)
Definition randbelow (n : nat) : Rand nat :=
  fun src => Some ((src 0%nat) mod n, fun i => src (S i))%nat.

(** [random.choice(seq)]: raises on an empty sequence. *)
Definition choice {A} (seq : list A) : Rand A :=
  match seq with
  | [] => raise
  | _ => i <- randbelow (List.length seq) ;;
         match seq !! i with
         | Some c => ret c
         | None => raise
         end
  end.

(** [random.choices(population, k=k)]: no draw at all when [k] is not
    positive, an error when a draw is made from an empty population. *)
Fixpoint choices_n {A} (population : list A) (k : nat) : Rand (list A) :=
  match k with
  | O => ret []
  | S k' => c <- choice population ;;
            cs <- choices_n population k' ;;
            ret (c :: cs)
  end.

Definition choices {A} (population : list A) (k : Z) : Rand (list A) :=
  choices_n population (Z.to_nat k).

(** [x[i], x[j] = x[j], x[i]]. *)
Definition swap {A} (x : list A) (i j : nat) : option (list A) :=
  match x !! j, x !! i with
  | Some xj, Some xi => Some (<[j:=xi]> (<[i:=xj]> x))
  | _, _ => None
  end.

(** The loop of [random.shuffle], at index [i] and downwards to 1. *)
Fixpoint shuffle_from {A} (i : nat) (x : list A) : Rand (list A) :=
  match i with
  | O => ret x
  | S i' => j <- randbelow (i + 1) ;;
            match swap x i j with
            | Some x' => shuffle_from i' x'
            | None => raise
            end
  end.

(** [random.shuffle(x)]: [for i in reversed(range(1, len(x)))]. *)
Definition shuffle {A} (x : list A) : Rand (list A) :=
  shuffle_from (List.length x - 1) x.

Fixpoint for_each {A B} (f : A -> Rand B) (l : list A) : Rand (list B) :=
  match l with
  | [] => ret []
  | a :: l' => b <- f a ;; bs <- for_each f l' ;; ret (b :: bs)
  end.

(** *** Helper functions *)

(** A dict with string keys, in insertion order. *)
Definition dict (V : Type) := list (string * V).

Fixpoint dict_get {V} (d : dict V) (key : string) : option V :=
  match d with
  | [] => None
  | (k, v) :: d' => if String.eqb k key then Some v else dict_get d' key
  end.

(** [get_active_character_sets]: the comprehension runs over the items of
    [preferences] in insertion order; every key of [preferences] is a key
    of [character_sets], so the lookup never fails. *)
Definition get_active_character_sets (f : form) : list string :=
  let preferences : dict bool :=
    [("include_numbers", include_numbers f);
     ("include_symbols", include_symbols f);
     ("include_uppercase_letters", include_uppercase_letters f);
     ("include_lowercase_letters", include_lowercase_letters f)] in
  let character_sets : dict string :=
    [("include_numbers", NUMBERS);
     ("include_symbols", SYMBOLS);
     ("include_uppercase_letters", UPPERCASE_LETTERS);
     ("include_lowercase_letters", LOWERCASE_LETTERS)] in
  flat_map
    (fun '(key, value) =>
       if value : bool then
         match dict_get character_sets key with
         | Some charset => [charset]
         | None => []
         end
       else [])
    preferences.

Definition get_min_password_length (f : form) : Z :=
  let selected :=
    [include_numbers f; include_symbols f;
     include_uppercase_letters f; include_lowercase_letters f] in
  Z.max MIN_PASSWORD_LENGTH
    (fold_right Z.add 0 (List.map (fun b : bool => if b then 1 else 0) selected)).

Definition is_password_length_valid (length_input : string) (min_length : Z)
  : bool * list dialog :=
  if negb (isdigit length_input && (0 <? int length_input)) then
    (false, show_error_message "Error" ERROR_MESSAGE_INVALID_LENGTH)
  else
    let length_int := int length_input in
    if length_int <? min_length then
      (false, show_error_message "Error" ERROR_MESSAGE_MIN_LENGTH)
    else if MAX_PASSWORD_LENGTH <? length_int then
      (false, show_error_message "Error" ERROR_MESSAGE_TOO_LARGE)
    else (true, []).

Definition generate_password_with_charsets (selected_sets : list string)
    (length : Z) : Rand string :=
  required_chars <-
    for_each (fun charset => choice (list_ascii_of_string charset)) selected_sets ;;
  let all_chars := String.concat "" selected_sets in
  remaining_chars <-
    choices (list_ascii_of_string all_chars) (length - len required_chars) ;;
  let password := required_chars ++ remaining_chars in
  password <- shuffle password ;;
  ret (string_of_list_ascii password).

(** *** Main logic *)

(** [generate_password]: the form afterwards and the dialogs shown. *)
Definition generate_password (f : form) : Rand (form * list dialog) :=
  let length_input := strip (password_length f) in
  if bool_decide (length_input = "") then
    ret (f, show_error_message "Error" ERROR_MESSAGE_EMPTY_LENGTH)
  else
    let min_length := get_min_password_length f in
    let '(valid, shown) := is_password_length_valid length_input min_length in
    if negb valid then ret (f, shown)
    else
      let selected_sets := get_active_character_sets f in
      if bool_decide (selected_sets = []) then
        ret (f, show_error_message "Error" ERROR_MESSAGE_NO_CHARSETS)
      else
        let password_length_val := int length_input in
        if password_length_val <? len selected_sets then
          ret (f, show_error_message "Error" ERROR_MESSAGE_GROUP_MISMATCH)
        else
          pw <- generate_password_with_charsets selected_sets password_length_val ;;
          ret (set_generated_password f pw, []).

(** *** Notions the properties are stated with *)

(** The four character classes of the form. *)
Definition character_class (charset : string) : Prop :=
  In charset [NUMBERS; SYMBOLS; UPPERCASE_LETTERS; LOWERCASE_LETTERS].

(** The character occurs in the string. *)
Definition occurs (c : ascii) (s : string) : Prop :=
  In c (list_ascii_of_string s).

(** A request is rejected: one error dialog, the form as it was (the
    password field with it) and no random draw made. *)
Definition rejected_with (message : string) (f : form) (src : source) : Prop :=
  generate_password f src = Some ((f, [ShowError "Error" message]), src).


(** *** A small request: all four classes, two characters *)
Module Sample.
Definition draws : source := fun i => (7 * i + 3)%nat.
End Sample.

(** *** The clipboard and the button *)

Definition SUCCESS_MESSAGE_COPY : string := "Password copied to clipboard.".
Definition ERROR_MESSAGE_NO_PASSWORD : string :=
  "Generate a password first to copy it to the clipboard.".

(** The calls [copy_to_clipboard] makes on the window and the message
    boxes, in the order it makes them. *)
Inductive tk_action :=
| ClipboardClear
| ClipboardAppend (text : string)
| Update
| ShowInfo (title message : string)
| Dialog (d : dialog).

(** Which of the three window calls raises, if any, and the text of the
    exception. *)
Inductive tk_fault :=
| NoFault
| ClearRaises (e : string)
| AppendRaises (e : string)
| UpdateRaises (e : string).

(** The [except] branch of [copy_to_clipboard]. *)
Definition copy_failed (e : string) : list tk_action :=
  List.map Dialog
    (show_error_message "Clipboard Error"
       ("Failed to copy password to clipboard. Error: " +:+ e)).

(** [copy_to_clipboard]; a call that raises is listed, what follows it in
    the [try] block is not made. *)
Definition copy_to_clipboard (f : form) (fault : tk_fault) : list tk_action :=
  let password := generated_password f in
  if negb (bool_decide (password = "")) then
    match fault with
    | ClearRaises e => [ClipboardClear] ++ copy_failed e
    | AppendRaises e => [ClipboardClear; ClipboardAppend password] ++ copy_failed e
    | UpdateRaises e =>
        [ClipboardClear; ClipboardAppend password; Update] ++ copy_failed e
    | NoFault =>
        [ClipboardClear; ClipboardAppend password; Update;
         ShowInfo "Success" SUCCESS_MESSAGE_COPY]
    end
  else
    List.map Dialog (show_error_message "Error" ERROR_MESSAGE_NO_PASSWORD).

(** [update_generate_button_state]: the state it sets on the button. *)
Definition update_generate_button_state (f : form) : list string :=
  let active_charsets := get_active_character_sets f in
  if negb (bool_decide (active_charsets = [])) then ["!disabled"] else ["disabled"].

(** *** Further notions *)

(** A request that can be served: a class is ticked and the length field,
    blanks at its ends apart, is a decimal numeral from 8 to 128. *)
Definition acceptable (f : form) : Prop :=
  get_active_character_sets f <> [] /\
  isdigit (strip (password_length f)) = true /\
  MIN_PASSWORD_LENGTH <= int (strip (password_length f)) <= MAX_PASSWORD_LENGTH.


End Password.

(** * Properties of the trivia quiz *)
Module TriviaFacts.
Import PyStr Trivia.

(** ** Digits and lower-casing *)

Lemma lower_char_digit c : is_digit_char c = true -> lower_char c = c.
Proof.
  destruct c as [[] [] [] [] [] [] [] []]; vm_compute; intros H;
    first [reflexivity | discriminate H].
Qed.

Lemma is_digit_lower_char c : is_digit_char (lower_char c) = is_digit_char c.
Proof. destruct c as [[] [] [] [] [] [] [] []]; reflexivity. Qed.

Lemma all_digits_lower s : all_digits (lower s) = all_digits s.
Proof.
  induction s as [|c s IH]; simpl; [reflexivity|].
  now rewrite is_digit_lower_char, IH.
Qed.

Lemma isdigit_lower s : isdigit (lower s) = isdigit s.
Proof.
  destruct s as [|c s]; [reflexivity|].
  change (all_digits (lower (String c s)) = all_digits (String c s)).
  apply all_digits_lower.
Qed.

Lemma lower_all_digits s : all_digits s = true -> lower s = s.
Proof.
  induction s as [|c s IH]; simpl; [reflexivity|].
  intros [Hc Hs]%andb_prop. now rewrite lower_char_digit, IH.
Qed.

Lemma lower_isdigit s : isdigit s = true -> lower s = s.
Proof.
  destruct s as [|c s]; [discriminate|]. apply lower_all_digits.
Qed.

(** The guard of [check_answer] fires on the typed line exactly when the
    line names no option. *)
Lemma not_an_option_spec line opts :
  not_an_option (take_answer line) opts = true <-> ~ option_number line opts.
Proof.
  unfold not_an_option, option_number, take_answer.
  rewrite isdigit_lower.
  destruct (isdigit line) eqn:Hd; simpl.
  - rewrite (lower_isdigit _ Hd). rewrite orb_true_iff, !Z.ltb_lt. split.
    + intros H [_ Hr]. lia.
    + intros H.
      destruct (Z_lt_dec (len opts) (int line)); [now left|].
      destruct (Z_lt_dec (int line) 1); [now right|].
      exfalso. apply H. split; [reflexivity | lia].
  - split; [intros _ [H _]; discriminate | reflexivity].
Qed.


(** ** Runs *)

Lemma run_from_app questions m l1 l2 :
  run_from questions m (l1 ++ l2) =
  emit (run_from questions m l1).2
    (run_from questions (run_from questions m l1).1 l2).
Proof.
  revert m. induction l1 as [|l l1 IH]; intros m; simpl.
  - unfold emit. now destruct (run_from questions m l2).
  - destruct (step questions m l) as [m' out]. rewrite IH.
    unfold emit; simpl. now rewrite app_assoc.
Qed.

Lemma run_from_reachable questions m lines :
  reachable questions m -> reachable questions (run_from questions m lines).1.
Proof.
  revert m. induction lines as [|l lines IH]; intros m Hm; simpl; [exact Hm|].
  destruct (step questions m l) as [m' out] eqn:Hs. simpl.
  apply IH. replace m' with (step questions m l).1 by now rewrite Hs.
  now constructor.
Qed.

Lemma run_reachable questions lines :
  reachable questions (run questions lines).1.
Proof. apply run_from_reachable. constructor. Qed.

(** An activation that returns hands over to a caller lower in the stack. *)
Lemma return_to_shorter callers pt fr callers' out :
  return_to callers = (Waiting pt fr callers', out) ->
  (List.length callers' < List.length callers)%nat.
Proof.
  revert pt fr callers' out.
  induction callers as [|c callers IH]; intros pt fr callers' out; simpl.
  - discriminate.
  - destruct (pending c) as [|q rest]; simpl.
    + intros H. apply IH in H. lia.
    + unfold ask. intros [= _ _ <-]. lia.
Qed.

Lemma next_question_same_stack lives qn qs callers pt fr out :
  next_question lives qn qs callers = (Waiting pt fr callers, out) ->
  exists q rest, qs = q :: rest /\ pt = FirstAnswer /\
    fr = mkFrame lives qn q rest /\
    out = [PrintQuestion qn (lower (question q)) (options q); PromptAnswer].
Proof.
  unfold next_question. destruct qs as [|q rest]; simpl.
  - intros H. apply return_to_shorter in H. lia.
  - unfold ask. simpl. intros [= <- <- <-]. eauto 6.
Qed.

(** ** What [check_answer] prints *)

Lemma check_answer_cases user_answer correct_answer opts :
  check_answer user_answer correct_answer opts = (VInvalid, [PrintEnterValid]) \/
  check_answer user_answer correct_answer opts = (VTrue, [PrintCorrect]) \/
  check_answer user_answer correct_answer opts = (VFalse, [PrintWrong correct_answer]).
Proof.
  unfold check_answer. destruct (not_an_option _ _); [now left|].
  case_bool_decide; auto.
Qed.

Lemma check_answer_verdict q line :
  check_answer (take_answer line) (lower (answer q)) (options q) =
  (verdict_on q line,
   match verdict_on q line with
   | VInvalid => [PrintEnterValid]
   | VTrue => [PrintCorrect]
   | VFalse => [PrintWrong (lower (answer q))]
   end).
Proof.
  unfold verdict_on.
  destruct (check_answer_cases (take_answer line) (lower (answer q)) (options q))
    as [H|[H|H]]; now rewrite H.
Qed.

(** ** The steps of [game], by verdict *)

Lemma step_first_wrong questions fr callers line :
  verdict_on (current fr) line = VFalse ->
  step questions (Waiting FirstAnswer fr callers) line =
  if lives fr - 1 =? 0 then
    (Waiting AgainAnswer
       (mkFrame (lives fr - 1) (question_number fr + 1) (current fr) (pending fr))
       callers,
     [PrintWrong (lower (answer (current fr))); PromptAgain true])
  else
    emit [PrintWrong (lower (answer (current fr))); PrintLivesLeft (lives fr - 1)]
      (next_question (lives fr - 1) (question_number fr + 1) (pending fr) callers).
Proof.
  intros Hv. unfold step. rewrite check_answer_verdict, Hv. reflexivity.
Qed.

Lemma step_first_correct questions fr callers line :
  verdict_on (current fr) line = VTrue ->
  step questions (Waiting FirstAnswer fr callers) line =
  emit [PrintCorrect]
    (next_question (lives fr) (question_number fr + 1) (pending fr) callers).
Proof.
  intros Hv. unfold step. rewrite check_answer_verdict, Hv. reflexivity.
Qed.

Lemma step_invalid questions pt fr callers line :
  pt <> AgainAnswer ->
  verdict_on (current fr) line = VInvalid ->
  step questions (Waiting pt fr callers) line =
  emit [PrintEnterValid] (ask RetryAnswer fr callers).
Proof.
  intros Hpt Hv. destruct pt; [| |congruence];
    unfold step; rewrite check_answer_verdict, Hv; reflexivity.
Qed.

(** In the retry loop a right and a wrong answer are treated alike: the
    loop ends, its [else] adds one to the question number, and the [for]
    loop goes on. The lives are not touched. *)
Lemma step_retry_valid questions fr callers line :
  verdict_on (current fr) line <> VInvalid ->
  step questions (Waiting RetryAnswer fr callers) line =
  emit (match verdict_on (current fr) line with
        | VTrue => [PrintCorrect]
        | _ => [PrintWrong (lower (answer (current fr)))]
        end)
    (next_question (lives fr) (question_number fr + 1) (pending fr) callers).
Proof.
  intros Hv. unfold step. rewrite check_answer_verdict.
  destruct (verdict_on (current fr) line); [reflexivity..|congruence].
Qed.

(** ** The claims *)



(** C2. On the sample file, a wrong option given at once costs a life, but
    the same wrong option given after an invalid line does not: the answer
    is announced as wrong, the next question is shown, and the lives are
    still 3. *)
Theorem wrong_answer_after_reprompt_keeps_lives :
  run Sample.file ["2"] =
    (Waiting FirstAnswer
       (mkFrame 2 2 Sample.sum [Sample.planet; Sample.ocean; Sample.river]) [],
     [PrintQuestion 1 "capital of france?" ["Paris"; "London"; "Berlin"];
      PromptAnswer;
      PrintWrong "paris"; PrintLivesLeft 2;
      PrintQuestion 2 "2 + 2?" ["3"; "4"]; PromptAnswer]) /\
  run Sample.file ["5"; "2"] =
    (Waiting FirstAnswer
       (mkFrame 3 2 Sample.sum [Sample.planet; Sample.ocean; Sample.river]) [],
     [PrintQuestion 1 "capital of france?" ["Paris"; "London"; "Berlin"];
      PromptAnswer;
      PrintEnterValid;
      PrintQuestion 1 "capital of france?" ["Paris"; "London"; "Berlin"];
      PromptAnswer;
      PrintWrong "paris";
      PrintQuestion 2 "2 + 2?" ["3"; "4"]; PromptAnswer]).
Proof. split; reflexivity. Qed.

(** C3. On the sample file: three wrong answers, a restart, the restarted
    session played to its end, and one more wrong answer. The first
    activation of [game] goes on after the restarted one returned, with no
    life left, and the next wrong answer takes its counter to -1, which the
    program prints. *)
Theorem lives_negative_after_restart :
  let lines := ["2"; "1"; "1"; "y"; "1"; "2"; "2"; "1"; "1"; "2"] in
  reachable Sample.file (run Sample.file lines).1 /\
  (run Sample.file lines).1 =
    Waiting FirstAnswer (mkFrame (-1) 6 Sample.river []) [] /\
  lives_of (run Sample.file lines).1 = Some (-1) /\
  In (PrintLivesLeft (-1)) (run Sample.file lines).2.
Proof.
  intros lines. split; [apply run_reachable|].
  split; [reflexivity|]. split; [reflexivity|].
  vm_compute. tauto.
Qed.

(** ** Game over *)

Lemma emit_eq out r m out' :
  emit out r = (m, out') -> r.1 = m /\ out' = out ++ r.2.
Proof. unfold emit. now intros [= <- <-]. Qed.

(** A step that leaves the running activation in place, by the frame it
    leaves behind: the lives change only where a first answer is wrong. *)
Lemma step_same_activation questions pt fr callers line pt' fr' out :
  step questions (Waiting pt fr callers) line = (Waiting pt' fr' callers, out) ->
  lives fr' = lives fr \/
  (pt = FirstAnswer /\ verdict_on (current fr) line = VFalse /\
   lives fr' = lives fr - 1).
Proof.
  intros Hstep. destruct pt.
  - destruct (verdict_on (current fr) line) eqn:Hv.
    + rewrite step_first_correct in Hstep by assumption.
      apply emit_eq in Hstep as [Hm _].
      destruct (next_question _ _ _ _) as [m o] eqn:Hn. simpl in Hm. subst m.
      apply next_question_same_stack in Hn as (q & rest & _ & _ & -> & _).
      now left.
    + right. split; [reflexivity|]. split; [reflexivity|].
      rewrite step_first_wrong in Hstep by assumption.
      destruct (lives fr - 1 =? 0).
      * now injection Hstep as _ <- _.
      * apply emit_eq in Hstep as [Hm _].
        destruct (next_question _ _ _ _) as [m o] eqn:Hn. simpl in Hm. subst m.
        now apply next_question_same_stack in Hn as (q & rest & _ & _ & -> & _).
    + rewrite step_invalid in Hstep by (assumption || discriminate).
      apply emit_eq in Hstep as [Hm _]. simpl in Hm.
      injection Hm as _ <-. now left.
  - left. destruct (verdict_on (current fr) line) eqn:Hv.
    1,2: rewrite step_retry_valid in Hstep by (rewrite Hv; discriminate);
      apply emit_eq in Hstep as [Hm _];
      destruct (next_question _ _ _ _) as [m o] eqn:Hn; simpl in Hm; subst m;
      now apply next_question_same_stack in Hn as (q & rest & _ & _ & -> & _).
    rewrite step_invalid in Hstep by (assumption || discriminate).
    apply emit_eq in Hstep as [Hm _]. simpl in Hm. now injection Hm as _ <-.
  - left. simpl in Hstep.
    destruct (negb _).
    + now injection Hstep as _ <- _.
    + case_bool_decide.
      * unfold game, next_question in Hstep.
        destruct (total_questions questions) as [|q rest]; simpl in Hstep.
        -- destruct (pending fr) as [|q rest]; simpl in Hstep.
           ++ apply return_to_shorter in Hstep. lia.
           ++ unfold ask in Hstep. now injection Hstep as _ <- _.
        -- unfold ask in Hstep. injection Hstep as _ _ Hc _.
           apply (f_equal (@List.length frame)) in Hc. simpl in Hc. lia.
      * apply emit_eq in Hstep as [Hm _].
        destruct (return_to callers) as [m o] eqn:Hr. simpl in Hm. subst m.
        apply return_to_shorter in Hr. lia.
Qed.




(** ** The order of the questions *)

Lemma has_difficulty_spec d q :
  lower d = d ->
  has_difficulty d q = bool_decide (same_ignoring_case (difficulty q) d).
Proof.
  intros Hd. unfold has_difficulty. apply bool_decide_ext.
  unfold same_ignoring_case. now rewrite Hd.
Qed.

Lemma total_questions_by_difficulty questions :
  total_questions questions =
  of_difficulty "easy" questions ++ of_difficulty "medium" questions ++
  of_difficulty "hard" questions.
Proof.
  unfold total_questions, categorize_questions, of_difficulty.
  rewrite (List.filter_ext _ _ (fun q => has_difficulty_spec "easy" q eq_refl)).
  rewrite (List.filter_ext _ _ (fun q => has_difficulty_spec "medium" q eq_refl)).
  rewrite (List.filter_ext _ _ (fun q => has_difficulty_spec "hard" q eq_refl)).
  reflexivity.
Qed.










(** ** Records of an unknown difficulty *)

Lemma step_ext a b m line :
  total_questions a = total_questions b -> step a m line = step b m line.
Proof.
  intros Hab. destruct m as [[] fr callers|]; try reflexivity.
  unfold step, game. now rewrite Hab.
Qed.

Lemma run_from_ext a b m lines :
  total_questions a = total_questions b ->
  run_from a m lines = run_from b m lines.
Proof.
  intros Hab. revert m. induction lines as [|l lines IH]; intros m; simpl;
    [reflexivity|].
  rewrite (step_ext a b m l Hab). destruct (step b m l) as [m' out].
  now rewrite IH.
Qed.

Lemma run_ext a b lines :
  total_questions a = total_questions b -> run a lines = run b lines.
Proof.
  intros Hab. unfold run, main, game.
  rewrite (run_from_ext a b _ lines Hab). now rewrite Hab.
Qed.

Lemma in_total_questions questions q :
  In q (total_questions questions) ->
  In q questions /\
  (same_ignoring_case (difficulty q) "easy" \/
   same_ignoring_case (difficulty q) "medium" \/
   same_ignoring_case (difficulty q) "hard").
Proof.
  rewrite total_questions_by_difficulty. unfold of_difficulty.
  rewrite !in_app_iff, !filter_In, !bool_decide_eq_true. tauto.
Qed.

(** C10. A record whose difficulty is none of easy, medium and hard,
    compared without regard to case, is not among the questions of the
    session, and the program runs on the file with the record exactly as
    on the file without it: same states, hence same lives and question
    numbers, and same output, whatever the user types. *)
Theorem unknown_difficulty_dropped before q after :
  ~ same_ignoring_case (difficulty q) "easy" ->
  ~ same_ignoring_case (difficulty q) "medium" ->
  ~ same_ignoring_case (difficulty q) "hard" ->
  ~ In q (total_questions (before ++ q :: after)) /\
  total_questions (before ++ q :: after) = total_questions (before ++ after) /\
  forall lines, run (before ++ q :: after) lines = run (before ++ after) lines.
Proof.
  intros He Hm Hh.
  assert (Ht : total_questions (before ++ q :: after) =
               total_questions (before ++ after)).
  { rewrite !total_questions_by_difficulty. unfold of_difficulty.
    rewrite !List.filter_app. cbn [List.filter].
    now rewrite !bool_decide_eq_false_2 by assumption. }
  split; [|split; [exact Ht|]].
  - intros [_ Hin]%in_total_questions. tauto.
  - intros lines. now apply run_ext.
Qed.

Lemma unknown_difficulty_dropped_witness :
  ~ In Sample.riddle (total_questions Sample.file) /\
  total_questions Sample.file =
    total_questions
      [Sample.ocean; Sample.capital; Sample.planet; Sample.sum; Sample.river] /\
  forall lines,
    run Sample.file lines =
    run [Sample.ocean; Sample.capital; Sample.planet; Sample.sum; Sample.river]
      lines.
Proof.
  apply (unknown_difficulty_dropped [Sample.ocean; Sample.capital] Sample.riddle
           [Sample.planet; Sample.sum; Sample.river]); discriminate.
Defined.

End TriviaFacts.

(** * Properties of the password generator *)
Module PasswordFacts.
Import PyStr Password.

(** The dialog shown is one with another message. *)
Ltac other_message :=
  let H := fresh in
  intros H; discriminate H.

(** ** Strings as character lists *)

Lemma length_string_of_list (l : list ascii) :
  String.length (string_of_list_ascii l) = List.length l.
Proof. induction l as [|c l IH]; simpl; congruence. Qed.

Lemma list_of_append (a b : string) :
  list_ascii_of_string (a +:+ b) =
  list_ascii_of_string a ++ list_ascii_of_string b.
Proof.
  induction a as [|c a IH]; [reflexivity|].
  change (c :: list_ascii_of_string (a +:+ b) =
          c :: (list_ascii_of_string a ++ list_ascii_of_string b)).
  now rewrite IH.
Qed.

Lemma occurs_concat c charset selected_sets :
  In charset selected_sets -> occurs c charset ->
  occurs c (String.concat "" selected_sets).
Proof.
  unfold occurs. induction selected_sets as [|x xs IH]; [intros []|].
  intros Hin Hc. simpl.
  destruct xs as [|y ys].
  - destruct Hin as [->|[]]. exact Hc.
  - rewrite list_of_append. apply in_or_app.
    destruct Hin as [->|Hin]; [now left|right].
    now apply IH.
Qed.

Lemma concat_occurs c selected_sets :
  occurs c (String.concat "" selected_sets) ->
  exists charset, In charset selected_sets /\ occurs c charset.
Proof.
  unfold occurs. induction selected_sets as [|x xs IH]; [intros []|].
  simpl. destruct xs as [|y ys].
  - intros Hc. exists x. split; [now left|exact Hc].
  - rewrite list_of_append. intros [Hc|Hc]%in_app_or.
    + exists x. split; [now left|exact Hc].
    + destruct (IH Hc) as (cs & Hin & Hcs). exists cs. split; [now right|exact Hcs].
Qed.

(** ** The random primitives *)

Lemma bind_Some {A B} (m : Rand A) (k : A -> Rand B) src a src1 :
  m src = Some (a, src1) -> bind m k src = k a src1.
Proof. unfold bind. now intros ->. Qed.

Lemma choice_total {A} (seq : list A) src :
  seq <> [] ->
  exists c src', choice seq src = Some (c, src') /\ In c seq.
Proof.
  intros Hne. destruct seq as [|a seq]; [congruence|].
  unfold choice, bind, randbelow.
  set (l := a :: seq).
  assert (Hlt : (src 0%nat mod List.length l < List.length l)%nat)
    by (apply Nat.mod_upper_bound; discriminate).
  destruct (lookup_lt_is_Some_2 l _ Hlt) as [c Hc].
  rewrite Hc. exists c, (fun i => src (S i)). split; [reflexivity|].
  apply list_elem_of_In. now apply list_elem_of_lookup_2 in Hc.
Qed.

Lemma choices_n_total {A} (population : list A) k src :
  population <> [] ->
  exists cs src', choices_n population k src = Some (cs, src') /\
    List.length cs = k /\ Forall (fun c => In c population) cs.
Proof.
  intros Hne. revert src. induction k as [|k IH]; intros src; simpl.
  - exists [], src. split; [reflexivity|]. split; [reflexivity|constructor].
  - destruct (choice_total population src Hne) as (c & src1 & Hc & Hin).
    destruct (IH src1) as (cs & src2 & Hcs & Hlen & Hall).
    exists (c :: cs), src2.
    rewrite (bind_Some _ _ _ _ _ Hc), (bind_Some _ _ _ _ _ Hcs).
    split; [reflexivity|]. split; [simpl; congruence|]. now constructor.
Qed.

Lemma for_each_choice_total (selected_sets : list string) src :
  Forall (fun charset => charset <> "") selected_sets ->
  exists cs src',
    for_each (fun charset => choice (list_ascii_of_string charset))
      selected_sets src = Some (cs, src') /\
    Forall2 (fun charset c => occurs c charset) selected_sets cs.
Proof.
  intros Hall. revert src.
  induction Hall as [|x xs Hx _ IH]; intros src; simpl.
  - exists [], src. split; [reflexivity|constructor].
  - assert (Hne : list_ascii_of_string x <> [])
      by (destruct x; [congruence|discriminate]).
    destruct (choice_total _ src Hne) as (c & src1 & Hc & Hin).
    destruct (IH src1) as (cs & src2 & Hcs & Hmem).
    exists (c :: cs), src2.
    rewrite (bind_Some _ _ _ _ _ Hc), (bind_Some _ _ _ _ _ Hcs).
    split; [reflexivity|]. now constructor.
Qed.

(** ** The shuffle *)

Lemma insert_Permutation {A} (l : list A) i x y :
  l !! i = Some y -> <[i:=x]> l ≡ₚ x :: delete i l.
Proof.
  intros Hi. apply lookup_lt_Some in Hi.
  rewrite insert_take_drop by exact Hi. rewrite delete_take_drop.
  symmetry. apply Permutation_middle.
Qed.

Lemma swap_total {A} (x : list A) i j :
  (i < List.length x)%nat -> (j < List.length x)%nat ->
  exists x', swap x i j = Some x' /\ x ≡ₚ x'.
Proof.
  intros Hi Hj. unfold swap.
  destruct (lookup_lt_is_Some_2 x i Hi) as [xi Hxi].
  destruct (lookup_lt_is_Some_2 x j Hj) as [xj Hxj].
  rewrite Hxi, Hxj. eexists. split; [reflexivity|].
  set (y := <[i:=xj]> x).
  assert (Hyj : y !! j = Some xj).
  { unfold y. destruct (decide (i = j)) as [->|Hne].
    - now apply list_lookup_insert_eq.
    - now rewrite list_lookup_insert_ne. }
  assert (Hd : delete j y ≡ₚ delete i x).
  { apply (Permutation_cons_inv (a := xj)).
    rewrite <- (delete_Permutation y j xj Hyj).
    unfold y. now apply insert_Permutation with (y := xi). }
  rewrite (insert_Permutation y j xi xj Hyj), Hd.
  now apply delete_Permutation.
Qed.

Lemma shuffle_from_total {A} i (x : list A) src :
  (i < List.length x)%nat \/ i = 0%nat ->
  exists x' src', shuffle_from i x src = Some (x', src') /\ x ≡ₚ x'.
Proof.
  revert x src. induction i as [|i IH]; intros x src Hi; simpl.
  - now exists x, src.
  - destruct Hi as [Hi|Hi]; [|discriminate].
    unfold bind, randbelow.
    match goal with |- context [swap x (S i) ?k] => set (j := k) end.
    assert (Hj : (j < S i + 1)%nat) by (apply Nat.mod_upper_bound; lia).
    destruct (swap_total x (S i) j) as (x1 & Hs & Hp); [lia..|].
    rewrite Hs.
    destruct (IH x1 (fun k => src (S k))) as (x' & src' & Hx' & Hp').
    { left. rewrite <- (Permutation_length Hp). lia. }
    exists x', src'. split; [exact Hx'|]. now rewrite Hp.
Qed.

Lemma shuffle_total {A} (x : list A) src :
  exists x' src', shuffle x src = Some (x', src') /\ x ≡ₚ x'.
Proof.
  unfold shuffle. apply shuffle_from_total.
  destruct x as [|a x]; [now right|left; simpl; lia].
Qed.

(** ** [generate_password_with_charsets] *)

Lemma character_class_nonempty charset :
  character_class charset -> charset <> "".
Proof.
  intros [<-|[<-|[<-|[<-|[]]]]]; discriminate.
Qed.

Lemma numbers_class : character_class NUMBERS.
Proof. now left. Qed.

Lemma symbols_class : character_class SYMBOLS.
Proof. right. now left. Qed.

Lemma uppercase_class : character_class UPPERCASE_LETTERS.
Proof. right. right. now left. Qed.

Lemma lowercase_class : character_class LOWERCASE_LETTERS.
Proof. right. right. right. now left. Qed.

Lemma classes_nonempty selected_sets :
  Forall character_class selected_sets ->
  Forall (fun charset => charset <> "") selected_sets.
Proof.
  intros H. eapply List.Forall_impl; [|exact H]. apply character_class_nonempty.
Qed.

Lemma all_chars_nonempty selected_sets :
  selected_sets <> [] ->
  Forall (fun charset => charset <> "") selected_sets ->
  list_ascii_of_string (String.concat "" selected_sets) <> [].
Proof.
  intros Hne Hall. destruct selected_sets as [|x xs]; [congruence|].
  inversion Hall as [|? ? Hx _]; subst.
  destruct x as [|c x]; [congruence|].
  assert (Hc : occurs c (String.concat "" (String c x :: xs)))
    by (apply (occurs_concat c (String c x)); now left).
  unfold occurs in Hc. intros Heq. rewrite Heq in Hc. exact Hc.
Qed.

(** The function returns, and its result is a rearrangement of one
    character drawn from each set followed by the filler characters. *)
Lemma generate_password_with_charsets_spec selected_sets length src :
  selected_sets <> [] ->
  Forall (fun charset => charset <> "") selected_sets ->
  exists required remaining password src',
    generate_password_with_charsets selected_sets length src =
      Some (string_of_list_ascii password, src') /\
    Forall2 (fun charset c => occurs c charset) selected_sets required /\
    List.length remaining = Z.to_nat (length - len required) /\
    Forall (fun c => occurs c (String.concat "" selected_sets)) remaining /\
    required ++ remaining ≡ₚ password.
Proof.
  intros Hne Hall. unfold generate_password_with_charsets.
  destruct (for_each_choice_total selected_sets src Hall)
    as (required & src1 & Hreq & Hmem).
  rewrite (bind_Some _ _ _ _ _ Hreq).
  destruct (choices_n_total (list_ascii_of_string (String.concat "" selected_sets))
              (Z.to_nat (length - len required)) src1
              (all_chars_nonempty _ Hne Hall))
    as (remaining & src2 & Hrem & Hlen & Hin).
  unfold choices. rewrite (bind_Some _ _ _ _ _ Hrem).
  destruct (shuffle_total (required ++ remaining) src2)
    as (password & src3 & Hsh & Hperm).
  rewrite (bind_Some _ _ _ _ _ Hsh).
  exists required, remaining, password, src3. repeat split; assumption.
Qed.

Lemma required_represented selected_sets required charset :
  Forall2 (fun charset c => occurs c charset) selected_sets required ->
  In charset selected_sets ->
  exists c, In c required /\ occurs c charset.
Proof.
  induction 1 as [|x c xs cs Hc _ IH]; [intros []|].
  intros [->|Hin].
  - exists c. split; [now left|exact Hc].
  - destruct (IH Hin) as (c' & Hc' & Ho). exists c'. split; [now right|exact Ho].
Qed.

Lemma required_from_sets selected_sets required c :
  Forall2 (fun charset c => occurs c charset) selected_sets required ->
  In c required ->
  exists charset, In charset selected_sets /\ occurs c charset.
Proof.
  induction 1 as [|x c' xs cs Hc _ IH]; [intros []|].
  intros [->|Hin].
  - exists x. split; [now left|exact Hc].
  - destruct (IH Hin) as (cs' & Hcs' & Ho). exists cs'. split; [now right|exact Ho].
Qed.

(** C1. For a non-empty list of character classes and a length of at least
    8, at least the number of classes and at most 128, whatever the random
    draws are, [generate_password_with_charsets] returns a string of
    exactly that many characters in which every selected class has one of
    its characters. *)
Theorem generated_password_length_and_classes selected_sets length src :
  selected_sets <> [] ->
  Forall character_class selected_sets ->
  Z.max MIN_PASSWORD_LENGTH (len selected_sets) <= length ->
  length <= MAX_PASSWORD_LENGTH ->
  exists password src',
    generate_password_with_charsets selected_sets length src =
      Some (password, src') /\
    Z.of_nat (String.length password) = length /\
    forall charset, In charset selected_sets ->
      exists c, occurs c password /\ occurs c charset.
Proof.
  intros Hne Hcls Hmin _.
  destruct (generate_password_with_charsets_spec selected_sets length src Hne
              (classes_nonempty _ Hcls))
    as (required & remaining & password & src' & Hgen & Hmem & Hlen & _ & Hperm).
  exists (string_of_list_ascii password), src'.
  split; [exact Hgen|]. split.
  - rewrite length_string_of_list, <- (Permutation_length Hperm).
    rewrite length_app, Hlen.
    assert (Hr : len required = len selected_sets)
      by (unfold len; now rewrite (Forall2_length _ _ _ Hmem)).
    unfold len in *. lia.
  - intros charset Hin.
    destruct (required_represented _ _ _ Hmem Hin) as (c & Hc & Ho).
    exists c. split; [|exact Ho].
    unfold occurs. rewrite list_ascii_of_string_of_list_ascii.
    apply (Permutation_in c Hperm). apply in_or_app. now left.
Qed.

Lemma generated_password_length_and_classes_witness :
  exists password src',
    generate_password_with_charsets [NUMBERS; LOWERCASE_LETTERS] 8
      (fun i => (7 * i + 3)%nat) = Some (password, src') /\
    Z.of_nat (String.length password) = 8 /\
    forall charset, In charset [NUMBERS; LOWERCASE_LETTERS] ->
      exists c, occurs c password /\ occurs c charset.
Proof.
  apply (generated_password_length_and_classes [NUMBERS; LOWERCASE_LETTERS] 8
           (fun i => (7 * i + 3)%nat)).
  - discriminate.
  - repeat (apply List.Forall_cons || apply List.Forall_nil);
      [exact numbers_class | exact lowercase_class].
  - vm_compute. discriminate.
  - vm_compute. discriminate.
Defined.

(** C6. For a valid request, whatever the random draws are, the function
    returns a string every character of which is in the alphabet of one
    of the selected classes. *)
Theorem generated_password_alphabet selected_sets length src :
  selected_sets <> [] ->
  Forall character_class selected_sets ->
  Z.max MIN_PASSWORD_LENGTH (len selected_sets) <= length ->
  length <= MAX_PASSWORD_LENGTH ->
  exists password src',
    generate_password_with_charsets selected_sets length src =
      Some (password, src') /\
    forall c, occurs c password ->
      exists charset, In charset selected_sets /\ occurs c charset.
Proof.
  intros Hne Hcls _ _.
  destruct (generate_password_with_charsets_spec selected_sets length src Hne
              (classes_nonempty _ Hcls))
    as (required & remaining & password & src' & Hgen & Hmem & _ & Hrem & Hperm).
  exists (string_of_list_ascii password), src'.
  split; [exact Hgen|].
  intros c Hc. unfold occurs in Hc.
  rewrite list_ascii_of_string_of_list_ascii in Hc.
  apply (Permutation_in c (Permutation_sym Hperm)) in Hc.
  apply in_app_or in Hc as [Hc|Hc].
  - exact (required_from_sets _ _ _ Hmem Hc).
  - apply concat_occurs. rewrite List.Forall_forall in Hrem. now apply Hrem.
Qed.

Lemma generated_password_alphabet_witness :
  exists password src',
    generate_password_with_charsets [NUMBERS] 8 (fun i => (7 * i + 3)%nat) =
      Some (password, src') /\
    forall c, occurs c password ->
      exists charset, In charset [NUMBERS] /\ occurs c charset.
Proof.
  apply (generated_password_alphabet [NUMBERS] 8 (fun i => (7 * i + 3)%nat)).
  - discriminate.
  - apply List.Forall_cons; [exact numbers_class | apply List.Forall_nil].
  - vm_compute. discriminate.
  - vm_compute. discriminate.
Defined.

(** ** The form *)

Lemma min_password_length_spec f :
  get_min_password_length f =
  Z.max MIN_PASSWORD_LENGTH (len (get_active_character_sets f)).
Proof.
  unfold get_min_password_length, get_active_character_sets.
  destruct f as [s [] [] [] [] g]; reflexivity.
Qed.

Lemma active_sets_at_most_four f : len (get_active_character_sets f) <= 4.
Proof.
  unfold get_active_character_sets.
  destruct f as [s [] [] [] [] g]; vm_compute; discriminate.
Qed.

(** The selected sets are the sets of the ticked boxes, in the order
    numbers, symbols, upper case, lower case. *)
Lemma active_sets_ticked f :
  get_active_character_sets f =
  (if include_numbers f then [NUMBERS] else []) ++
  (if include_symbols f then [SYMBOLS] else []) ++
  (if include_uppercase_letters f then [UPPERCASE_LETTERS] else []) ++
  (if include_lowercase_letters f then [LOWERCASE_LETTERS] else []).
Proof. destruct f as [s [] [] [] [] g]; reflexivity. Qed.

Lemma active_sets_classes f :
  Forall character_class (get_active_character_sets f).
Proof.
  rewrite active_sets_ticked.
  destruct f as [s [] [] [] [] g];
    cbn [app include_numbers include_symbols
           include_uppercase_letters include_lowercase_letters];
    repeat (apply List.Forall_cons;
            [first [exact numbers_class | exact symbols_class
                   | exact uppercase_class | exact lowercase_class]|]);
    apply List.Forall_nil.
Qed.


(** [generate_password], check after check. *)
Lemma generate_password_checks f src :
  let length_input := strip (password_length f) in
  let selected_sets := get_active_character_sets f in
  generate_password f src =
  if bool_decide (length_input = "") then
    Some ((f, [ShowError "Error" ERROR_MESSAGE_EMPTY_LENGTH]), src)
  else if negb (isdigit length_input && (0 <? int length_input)) then
    Some ((f, [ShowError "Error" ERROR_MESSAGE_INVALID_LENGTH]), src)
  else if int length_input <? get_min_password_length f then
    Some ((f, [ShowError "Error" ERROR_MESSAGE_MIN_LENGTH]), src)
  else if MAX_PASSWORD_LENGTH <? int length_input then
    Some ((f, [ShowError "Error" ERROR_MESSAGE_TOO_LARGE]), src)
  else if bool_decide (selected_sets = []) then
    Some ((f, [ShowError "Error" ERROR_MESSAGE_NO_CHARSETS]), src)
  else if int length_input <? len selected_sets then
    Some ((f, [ShowError "Error" ERROR_MESSAGE_GROUP_MISMATCH]), src)
  else
    match generate_password_with_charsets selected_sets (int length_input) src with
    | Some (pw, src') => Some ((set_generated_password f pw, []), src')
    | None => None
    end.
Proof.
  intros length_input selected_sets.
  unfold generate_password, is_password_length_valid.
  fold length_input. fold selected_sets.
  destruct (bool_decide (length_input = "")); [reflexivity|].
  destruct (negb _); [reflexivity|].
  destruct (int length_input <? get_min_password_length f); [reflexivity|].
  destruct (MAX_PASSWORD_LENGTH <? int length_input); [reflexivity|].
  cbn [negb].
  destruct (bool_decide (selected_sets = [])); [reflexivity|].
  destruct (int length_input <? len selected_sets); [reflexivity|].
  unfold bind, ret.
  destruct (generate_password_with_charsets _ _ _) as [[pw src']|]; reflexivity.
Qed.





(** ** A length below the number of classes *)








End PasswordFacts.


(** * Further properties of the trivia quiz *)
Module TriviaMore.
Import PyStr Trivia TriviaFacts.

(** ** [check_answer] *)

Lemma lower_char_idempotent c : lower_char (lower_char c) = lower_char c.
Proof. destruct c as [[] [] [] [] [] [] [] []]; reflexivity. Qed.

Lemma lower_idempotent s : lower (lower s) = lower s.
Proof.
  induction s as [|c s IH]; simpl; [reflexivity|].
  now rewrite lower_char_idempotent, IH.
Qed.

Lemma graded_on_named_option q line :
  option_number line (options q) ->
  exists text,
    nth_error (options q) (Z.to_nat (int line - 1)) = Some text /\
    verdict_on q line =
      if bool_decide (same_ignoring_case text (answer q)) then VTrue else VFalse.
Proof.
  intros Hopt. pose proof Hopt as [Hd [Hlo Hhi]].
  assert (Hlt : (Z.to_nat (int line - 1) < List.length (options q))%nat)
    by (unfold len in Hhi; lia).
  destruct (nth_error (options q) (Z.to_nat (int line - 1))) as [text|] eqn:Hn;
    [|apply nth_error_None in Hn; lia].
  exists text. split; [reflexivity|].
  unfold verdict_on, check_answer.
  destruct (not_an_option (take_answer line) (options q)) eqn:Hg.
  { apply not_an_option_spec in Hg. contradiction. }
  unfold take_answer. rewrite (lower_isdigit _ Hd).
  rewrite (nth_error_nth _ _ EmptyString Hn), lower_idempotent.
  unfold same_ignoring_case.
  destruct (bool_decide (lower text = lower (answer q))); reflexivity.
Qed.



(** ** The lives *)

(** X2. Within one activation the lives change in one way only: a wrong
    option given as the first answer to a question takes exactly one life.
    Invalid lines, right answers, any answer in the retry loop and the
    lines typed at the restart prompt leave the counter as it is. *)
Theorem lives_change_by_first_wrong_answer questions pt fr callers line pt' fr' out :
  step questions (Waiting pt fr callers) line = (Waiting pt' fr' callers, out) ->
  lives fr' =
    match pt, verdict_on (current fr) line with
    | FirstAnswer, VFalse => lives fr - 1
    | _, _ => lives fr
    end.
Proof.
  intros Hstep.
  destruct (step_same_activation _ _ _ _ _ _ _ _ Hstep) as [He|(-> & Hv & Hl)].
  - destruct pt; try exact He.
    destruct (verdict_on (current fr) line) eqn:Hv; try exact He.
    rewrite step_first_wrong in Hstep by exact Hv.
    destruct (lives fr - 1 =? 0).
    + now injection Hstep as _ <- _.
    + apply emit_eq in Hstep as [Hm _].
      destruct (next_question _ _ _ _) as [m o] eqn:Hn. simpl in Hm. subst m.
      now apply next_question_same_stack in Hn as (q & rest & _ & _ & -> & _).
  - now rewrite Hv.
Qed.

Lemma lives_change_by_first_wrong_answer_witness :
  lives (mkFrame 2 2 Sample.sum [Sample.planet]) =
    match FirstAnswer, verdict_on Sample.capital "2" with
    | FirstAnswer, VFalse => lives (mkFrame 3 1 Sample.capital [Sample.sum; Sample.planet]) - 1
    | _, _ => lives (mkFrame 3 1 Sample.capital [Sample.sum; Sample.planet])
    end.
Proof.
  apply (lives_change_by_first_wrong_answer Sample.file FirstAnswer
           (mkFrame 3 1 Sample.capital [Sample.sum; Sample.planet]) [] "2"
           FirstAnswer (mkFrame 2 2 Sample.sum [Sample.planet])
           [PrintWrong "paris"; PrintLivesLeft 2;
            PrintQuestion 2 "2 + 2?" ["3"; "4"]; PromptAnswer]).
  reflexivity.
Defined.

Lemma return_to_capped callers :
  Forall (fun c => lives c = 0) callers -> lives_capped (return_to callers).1.
Proof.
  induction callers as [|c callers IH]; intros Hall; simpl; [exact I|].
  inversion Hall as [|? ? Hc Hcs]; subst.
  destruct (pending c) as [|q rest]; simpl; [now apply IH|].
  unfold LIVES. split; [lia|]. split; [discriminate|exact Hcs].
Qed.

Lemma next_question_capped lives qn qs callers :
  lives <= LIVES ->
  Forall (fun c => Trivia.lives c = 0) callers ->
  lives_capped (next_question lives qn qs callers).1.
Proof.
  intros Hl Hall. unfold next_question.
  destruct qs as [|q rest]; simpl; [now apply return_to_capped|].
  split; [exact Hl|]. split; [discriminate|exact Hall].
Qed.

Lemma step_capped questions m line :
  lives_capped m -> lives_capped (step questions m line).1.
Proof.
  destruct m as [pt fr callers|]; [|intros _; exact I].
  intros (Hle & Hz & Hcs). destruct pt.
  - destruct (verdict_on (current fr) line) eqn:Hv.
    + rewrite step_first_correct by exact Hv. cbn [emit fst].
      now apply next_question_capped.
    + rewrite step_first_wrong by exact Hv.
      destruct (lives fr - 1 =? 0) eqn:Hk.
      * apply Z.eqb_eq in Hk. simpl. split; [unfold LIVES in *; lia|].
        split; [intros _; exact Hk|exact Hcs].
      * cbn [emit fst]. apply next_question_capped; [lia|exact Hcs].
    + rewrite step_invalid by (exact Hv || discriminate). simpl.
      split; [exact Hle|]. split; [discriminate|exact Hcs].
  - destruct (verdict_on (current fr) line) eqn:Hv.
    1,2: rewrite step_retry_valid by (rewrite Hv; discriminate); cbn [emit fst];
      now apply next_question_capped.
    rewrite step_invalid by (exact Hv || discriminate). simpl.
    split; [exact Hle|]. split; [discriminate|exact Hcs].
  - simpl. destruct (negb _); [now split|].
    case_bool_decide.
    + unfold game. apply next_question_capped; [reflexivity|].
      constructor; [now apply Hz|exact Hcs].
    + cbn [emit fst]. now apply return_to_capped.
Qed.

(** X3. In every state of every run, restarts included, no activation has
    more lives than the 3 it started with, the activation standing at the
    restart prompt has none, and every activation suspended by a restart has
    none either. *)
Theorem lives_never_above_start questions pt fr callers :
  reachable questions (Waiting pt fr callers) ->
  lives fr <= LIVES /\
  (pt = AgainAnswer -> lives fr = 0) /\
  Forall (fun c => lives c = 0) callers.
Proof.
  intros Hr.
  enough (H : forall m, reachable questions m -> lives_capped m)
    by exact (H _ Hr).
  clear. induction 1 as [|m line _ IH].
  - unfold main, game. apply next_question_capped; [reflexivity|constructor].
  - now apply step_capped.
Qed.

Lemma lives_never_above_start_witness :
  lives (mkFrame 3 1 Sample.capital [Sample.sum; Sample.planet; Sample.ocean; Sample.river])
    <= LIVES /\
  (FirstAnswer = AgainAnswer ->
   lives (mkFrame 3 1 Sample.capital
            [Sample.sum; Sample.planet; Sample.ocean; Sample.river]) = 0) /\
  Forall (fun c => lives c = 0)
    [mkFrame 0 4 Sample.planet [Sample.ocean; Sample.river]].
Proof.
  apply (lives_never_above_start Sample.file).
  exact (run_reachable Sample.file ["2"; "1"; "1"; "y"]).
Defined.

(** ** A program that is never restarted *)

Lemma len_snoc {A} (l : list A) (a : A) : len (l ++ [a]) = len l + 1.
Proof. unfold len. rewrite length_app. simpl. lia. Qed.

Lemma next_question_first_session questions lives qn qs shown :
  total_questions questions = shown ++ qs ->
  1 <= lives <= LIVES ->
  qn = len shown + 1 ->
  first_session questions (next_question lives qn qs []).1.
Proof.
  intros Ht Hl Hq. unfold next_question.
  destruct qs as [|q rest]; simpl; [exact I|].
  split; [reflexivity|]. exists shown. auto.
Qed.

Lemma step_first_session questions m line :
  lower line <> "y" ->
  first_session questions m ->
  first_session questions (step questions m line).1.
Proof.
  intros Hy. destruct m as [pt fr callers|]; [|intros _; exact I].
  intros (-> & shown & Ht & Hpt).
  assert (Ht' : total_questions questions = (shown ++ [current fr]) ++ pending fr)
    by now rewrite <- app_assoc.
  destruct pt.
  - destruct Hpt as [Hl Hq].
    destruct (verdict_on (current fr) line) eqn:Hv.
    + rewrite step_first_correct by exact Hv. cbn [emit fst].
      apply (next_question_first_session _ _ _ _ _ Ht' Hl).
      rewrite len_snoc. lia.
    + rewrite step_first_wrong by exact Hv.
      destruct (lives fr - 1 =? 0) eqn:Hk.
      * apply Z.eqb_eq in Hk. simpl. split; [reflexivity|].
        exists shown. split; [exact Ht|]. split; [exact Hk|lia].
      * apply Z.eqb_neq in Hk. cbn [emit fst].
        apply (next_question_first_session _ _ _ _ _ Ht'); [lia|].
        rewrite len_snoc. lia.
    + rewrite step_invalid by (exact Hv || discriminate). simpl.
      split; [reflexivity|]. exists shown. auto.
  - destruct Hpt as [Hl Hq].
    destruct (verdict_on (current fr) line) eqn:Hv.
    1,2: rewrite step_retry_valid by (rewrite Hv; discriminate); cbn [emit fst];
      apply (next_question_first_session _ _ _ _ _ Ht' Hl);
      rewrite len_snoc; lia.
    rewrite step_invalid by (exact Hv || discriminate). simpl.
    split; [reflexivity|]. exists shown. auto.
  - simpl. rewrite (bool_decide_eq_false_2 _ Hy). simpl.
    case_bool_decide; simpl; [exact I|].
    split; [reflexivity|]. exists shown. auto.
Qed.

Lemma run_from_first_session questions m lines :
  never_restarts lines ->
  first_session questions m ->
  first_session questions (run_from questions m lines).1.
Proof.
  intros Hno. revert m. induction Hno as [|line lines Hy _ IH]; intros m Hm;
    simpl; [exact Hm|].
  destruct (step questions m line) as [m' out] eqn:Hs. simpl.
  apply IH. replace m' with (step questions m line).1 by now rewrite Hs.
  now apply step_first_session.
Qed.

Lemma run_first_session questions lines :
  never_restarts lines -> first_session questions (run questions lines).1.
Proof.
  intros Hno. apply run_from_first_session; [exact Hno|].
  unfold main, game.
  apply (next_question_first_session questions LIVES 1 _ []);
    [reflexivity | unfold LIVES; lia | reflexivity].
Qed.

(** X4. As long as the user never answers yes, in whatever case, the
    program is one activation of [game] whose lives are between 0 and 3, and
    they are 0 exactly when it stands at the restart prompt: while a
    question is being asked there is at least one life left. *)
Theorem lives_in_range_without_restart questions lines pt fr callers :
  never_restarts lines ->
  (run questions lines).1 = Waiting pt fr callers ->
  callers = [] /\ 0 <= lives fr <= LIVES /\ (lives fr = 0 <-> pt = AgainAnswer).
Proof.
  intros Hno Hm. pose proof (run_first_session questions lines Hno) as H.
  rewrite Hm in H. destruct H as (Hc & shown & _ & Hpt).
  split; [exact Hc|]. unfold LIVES in *.
  destruct pt; destruct Hpt as [Hl _].
  - split; [lia|]. split; [lia|discriminate].
  - split; [lia|]. split; [lia|discriminate].
  - split; [lia|]. split; [reflexivity|exact (fun _ => Hl)].
Qed.

Lemma lives_in_range_without_restart_witness :
  @nil frame = [] /\
  0 <= lives (mkFrame 0 4 Sample.planet [Sample.ocean; Sample.river]) <= LIVES /\
  (lives (mkFrame 0 4 Sample.planet [Sample.ocean; Sample.river]) = 0 <->
   AgainAnswer = AgainAnswer).
Proof.
  apply (lives_in_range_without_restart Sample.file ["2"; "1"; "1"; "maybe"]).
  - repeat constructor; discriminate.
  - reflexivity.
Defined.

(** X5. As long as the user never answers yes, the number printed with a
    question is its position in the list of the session: the first question
    is number 1, and every question left behind, with a right or a wrong
    answer, adds exactly one. *)
Theorem questions_numbered_by_position questions lines pt fr callers :
  never_restarts lines ->
  (run questions lines).1 = Waiting pt fr callers ->
  pt <> AgainAnswer ->
  exists shown,
    total_questions questions = shown ++ current fr :: pending fr /\
    question_number fr = len shown + 1.
Proof.
  intros Hno Hm Hpt. pose proof (run_first_session questions lines Hno) as H.
  rewrite Hm in H. destruct H as (_ & shown & Ht & Hq).
  exists shown. split; [exact Ht|].
  destruct pt; [apply Hq|apply Hq|congruence].
Qed.

Lemma questions_numbered_by_position_witness :
  exists shown,
    total_questions Sample.file =
      shown ++ current (mkFrame 2 3 Sample.planet [Sample.ocean; Sample.river])
        :: pending (mkFrame 2 3 Sample.planet [Sample.ocean; Sample.river]) /\
    question_number (mkFrame 2 3 Sample.planet [Sample.ocean; Sample.river]) =
      len shown + 1.
Proof.
  apply (questions_numbered_by_position Sample.file ["2"; "x"; "1"] FirstAnswer
           (mkFrame 2 3 Sample.planet [Sample.ocean; Sample.river]) []).
  - repeat constructor; discriminate.
  - reflexivity.
  - discriminate.
Defined.

(** ** Restarted sessions *)

Lemma return_to_above callers below pt fr callers' out :
  return_to callers = (Waiting pt fr callers', out) ->
  return_to (callers ++ below) = (Waiting pt fr (callers' ++ below), out).
Proof.
  revert pt fr callers' out.
  induction callers as [|c callers IH]; intros pt fr callers' out; simpl;
    [discriminate|].
  destruct (pending c) as [|q rest]; simpl; [apply IH|].
  unfold ask. now intros [= <- <- <- <-].
Qed.

Lemma next_question_above lives qn qs callers below pt fr callers' out :
  next_question lives qn qs callers = (Waiting pt fr callers', out) ->
  next_question lives qn qs (callers ++ below) =
    (Waiting pt fr (callers' ++ below), out).
Proof.
  unfold next_question. destruct qs as [|q rest]; simpl;
    [apply return_to_above|].
  unfold ask. now intros [= <- <- <- <-].
Qed.

Lemma emit_above out r below pt fr callers' out' r' :
  (forall pt fr callers' o,
      r = (Waiting pt fr callers', o) -> r' = (Waiting pt fr (callers' ++ below), o)) ->
  emit out r = (Waiting pt fr callers', out') ->
  emit out r' = (Waiting pt fr (callers' ++ below), out').
Proof.
  intros Hr Hemit. destruct r as [m o]. unfold emit in Hemit. simpl in Hemit.
  injection Hemit as -> <-. now rewrite (Hr _ _ _ _ eq_refl).
Qed.

Lemma step_above questions below pt fr callers line pt' fr' callers' out :
  step questions (Waiting pt fr callers) line = (Waiting pt' fr' callers', out) ->
  step questions (Waiting pt fr (callers ++ below)) line =
    (Waiting pt' fr' (callers' ++ below), out).
Proof.
  destruct pt.
  - destruct (verdict_on (current fr) line) eqn:Hv.
    + rewrite !step_first_correct by exact Hv.
      apply emit_above. intros ? ? ? ?. apply next_question_above.
    + rewrite !step_first_wrong by exact Hv.
      destruct (lives fr - 1 =? 0).
      * now intros [= <- <- <- <-].
      * apply emit_above. intros ? ? ? ?. apply next_question_above.
    + rewrite !step_invalid by (exact Hv || discriminate).
      apply emit_above. unfold ask. now intros ? ? ? ? [= <- <- <- <-].
  - destruct (verdict_on (current fr) line) eqn:Hv.
    1,2: rewrite !step_retry_valid by (rewrite Hv; discriminate);
      apply emit_above; intros ? ? ? ?; apply next_question_above.
    rewrite !step_invalid by (exact Hv || discriminate).
    apply emit_above. unfold ask. now intros ? ? ? ? [= <- <- <- <-].
  - simpl. destruct (negb _); [now intros [= <- <- <- <-]|].
    case_bool_decide.
    + unfold game. apply (next_question_above _ _ _ (fr :: callers)).
    + apply emit_above. intros ? ? ? ?. apply return_to_above.
Qed.

Lemma run_from_finished questions lines :
  run_from questions Finished lines = (Finished, []).
Proof.
  induction lines as [|l lines IH]; simpl; [reflexivity|]. now rewrite IH.
Qed.

Lemma run_from_above questions below m lines pt fr callers out :
  run_from questions m lines = (Waiting pt fr callers, out) ->
  run_from questions (above below m) lines =
    (Waiting pt fr (callers ++ below), out).
Proof.
  revert m out. induction lines as [|l lines IH]; intros m out; simpl.
  - now intros [= -> <-].
  - destruct m as [pt0 fr0 cs0|];
      [|cbn [step]; rewrite run_from_finished; discriminate].
    destruct (step questions (Waiting pt0 fr0 cs0) l) as [m1 o1] eqn:Hs.
    destruct m1 as [pt1 fr1 cs1|]; [|rewrite run_from_finished; discriminate].
    cbn [above]. rewrite (step_above _ below _ _ _ _ _ _ _ _ Hs).
    destruct (run_from questions (Waiting pt1 fr1 cs1) lines) as [m2 o2] eqn:Hr.
    unfold emit at 1. cbn [fst snd]. intros [= -> <-].
    pose proof (IH (Waiting pt1 fr1 cs1) o2 Hr) as Hlift. cbn [above] in Hlift.
    now rewrite Hlift.
Qed.

(** X6. A restarted session goes as the program went from its start: for as
    long as the program, given some lines from its start, is still asking,
    a session entered on top of any suspended activations and given the
    same lines prints the same and is in the same state, with the suspended
    activations untouched below it. *)
Theorem restarted_session_runs_like_program questions below lines pt fr callers out :
  run questions lines = (Waiting pt fr callers, out) ->
  emit (game questions LIVES below).2
    (run_from questions (game questions LIVES below).1 lines) =
  (Waiting pt fr (callers ++ below), out).
Proof.
  unfold run, main, game, next_question.
  destruct (total_questions questions) as [|q rest]; cbn [for_loop].
  - cbn [return_to fst snd]. rewrite run_from_finished. discriminate.
  - unfold ask. cbn [fst snd]. intros Hrun.
    apply emit_eq in Hrun as [Hm Ho].
    destruct (run_from questions _ lines) as [m o] eqn:Hr. simpl in Hm, Ho.
    subst m out.
    pose proof (run_from_above questions below _ _ _ _ _ _ Hr) as Hlift.
    cbn [above app] in Hlift. now rewrite Hlift.
Qed.

Lemma restarted_session_runs_like_program_witness :
  emit (game Sample.file LIVES [mkFrame 0 4 Sample.planet [Sample.ocean; Sample.river]]).2
    (run_from Sample.file
       (game Sample.file LIVES
          [mkFrame 0 4 Sample.planet [Sample.ocean; Sample.river]]).1 ["1"; "7"]) =
  (Waiting RetryAnswer
     (mkFrame 3 2 Sample.sum [Sample.planet; Sample.ocean; Sample.river])
     ([] ++ [mkFrame 0 4 Sample.planet [Sample.ocean; Sample.river]]),
   [PrintQuestion 1 "capital of france?" ["Paris"; "London"; "Berlin"];
    PromptAnswer; PrintCorrect;
    PrintQuestion 2 "2 + 2?" ["3"; "4"]; PromptAnswer; PrintEnterValid;
    PrintQuestion 2 "2 + 2?" ["3"; "4"]; PromptAnswer]).
Proof.
  apply (restarted_session_runs_like_program Sample.file
           [mkFrame 0 4 Sample.planet [Sample.ocean; Sample.river]] ["1"; "7"]).
  reflexivity.
Defined.

(** X7. Declining the restart ends the session that asked, not always the
    program. With no session suspended below, the program ends after its
    farewell. In a restarted session, the farewell is followed by the next
    question of the session that was suspended: it goes on with the lives it
    had, and with its question number once more raised by one. *)
Theorem declined_restart_resumes_suspended_session questions fr line :
  lower line = "n" ->
  step questions (Waiting AgainAnswer fr []) line = (Finished, [PrintThanks]) /\
  forall c callers q rest,
    pending c = q :: rest ->
    step questions (Waiting AgainAnswer fr (c :: callers)) line =
    (Waiting FirstAnswer (mkFrame (lives c) (question_number c + 1) q rest) callers,
     [PrintThanks;
      PrintQuestion (question_number c + 1) (lower (question q)) (options q);
      PromptAnswer]).
Proof.
  intros Hn. split.
  - simpl. rewrite Hn. reflexivity.
  - intros c callers q rest Hp. simpl. rewrite Hn, Hp. reflexivity.
Qed.

Lemma declined_restart_resumes_suspended_session_witness :
  step Sample.file
    (Waiting AgainAnswer (mkFrame 0 4 Sample.planet [Sample.ocean; Sample.river])
       [mkFrame 0 4 Sample.planet [Sample.ocean; Sample.river]]) "N" =
  (Waiting FirstAnswer (mkFrame 0 5 Sample.ocean [Sample.river]) [],
   [PrintThanks;
    PrintQuestion 5 "largest ocean?" ["Pacific"; "Atlantic"];
    PromptAnswer]).
Proof.
  apply (proj2 (declined_restart_resumes_suspended_session Sample.file
                  (mkFrame 0 4 Sample.planet [Sample.ocean; Sample.river]) "N"
                  eq_refl)
           (mkFrame 0 4 Sample.planet [Sample.ocean; Sample.river]) []
           Sample.ocean [Sample.river]).
  reflexivity.
Defined.

(** ** Edge cases of the question file *)

Lemma filter_none {A} (f : A -> bool) (l : list A) :
  Forall (fun a => f a = false) l -> List.filter f l = [].
Proof.
  induction 1 as [|a l Ha _ IH]; simpl; [reflexivity|]. now rewrite Ha.
Qed.

(** X8. A file in which no record has one of the three difficulties, the
    empty file among them, gives a program that ends at once: it prints
    nothing and reads nothing. *)
Theorem quiz_without_known_difficulty_ends_at_once questions lines :
  Forall (fun q => known_difficulty q = false) questions ->
  run questions lines = (Finished, []).
Proof.
  intros Hall.
  assert (Ht : total_questions questions = []).
  { unfold total_questions, categorize_questions.
    rewrite !filter_none; [reflexivity|..];
      (eapply List.Forall_impl; [|exact Hall]); intros q; unfold known_difficulty;
      destruct (has_difficulty "easy" q), (has_difficulty "medium" q),
        (has_difficulty "hard" q); simpl; congruence. }
  unfold run, main, game, next_question. rewrite Ht. cbn [for_loop return_to fst snd].
  now rewrite run_from_finished.
Qed.

Lemma quiz_without_known_difficulty_ends_at_once_witness :
  run [Sample.riddle] ["1"; "y"] = (Finished, []).
Proof.
  apply (quiz_without_known_difficulty_ends_at_once [Sample.riddle] ["1"; "y"]).
  repeat constructor.
Defined.



Lemma one_difficulty q :
  (has_difficulty "easy" q = true ->
   has_difficulty "medium" q = false /\ has_difficulty "hard" q = false) /\
  (has_difficulty "medium" q = true -> has_difficulty "hard" q = false).
Proof.
  unfold has_difficulty. split.
  - intros He%bool_decide_eq_true. rewrite He. split; reflexivity.
  - intros Hm%bool_decide_eq_true. rewrite Hm. reflexivity.
Qed.

(** X10. Filing the questions under the three difficulties and joining the
    three lists neither loses nor repeats a question: the list of the
    session is a rearrangement of the records of the file that have one of
    the three difficulties. *)
Theorem total_questions_rearranges_known_questions questions :
  Permutation (total_questions questions) (List.filter known_difficulty questions).
Proof.
  unfold total_questions, categorize_questions.
  induction questions as [|q questions IH]; [constructor|].
  cbn [List.filter]. unfold known_difficulty at 1.
  destruct (one_difficulty q) as [He Hm].
  destruct (has_difficulty "easy" q) eqn:Heq.
  - destruct (He eq_refl) as [-> ->]. cbn [orb app]. now constructor.
  - destruct (has_difficulty "medium" q) eqn:Hmq.
    + rewrite (Hm eq_refl). cbn [orb app].
      rewrite <- Permutation_middle. now constructor.
    + destruct (has_difficulty "hard" q); cbn [orb]; [|exact IH].
      rewrite app_assoc, <- Permutation_middle, <- app_assoc. now constructor.
Qed.

(** ** The numbers on the screen *)

Lemma all_digits_string_of_uint d :
  all_digits (NilEmpty.string_of_uint d) = true.
Proof. induction d; simpl; auto. Qed.

Lemma int_acc_string_of_uint d acc :
  int_acc (Zpos acc) (NilEmpty.string_of_uint d) = Zpos (Pos.of_uint_acc d acc).
Proof.
  revert acc. induction d as [|d IH|d IH|d IH|d IH|d IH|d IH|d IH|d IH|d IH|d IH];
    intros acc; [reflexivity|..];
    cbn [NilEmpty.string_of_uint int_acc Pos.of_uint_acc];
    rewrite <- IH; f_equal; unfold digit_value;
    try match goal with
        | |- context [Z.of_nat (nat_of_ascii ?c) - 48] =>
            let v := eval vm_compute in (Z.of_nat (nat_of_ascii c) - 48) in
            change (Z.of_nat (nat_of_ascii c) - 48) with v
        end;
    lia.
Qed.

Lemma int_string_of_uint d :
  int (NilEmpty.string_of_uint d) = Z.of_N (Pos.of_uint d).
Proof.
  unfold int.
  induction d as [|d IH|d IH|d IH|d IH|d IH|d IH|d IH|d IH|d IH|d IH];
    [reflexivity|exact IH|..];
    cbn [NilEmpty.string_of_uint int_acc Pos.of_uint Z.of_N];
    rewrite <- int_acc_string_of_uint; reflexivity.
Qed.

Lemma nth_error_is_lookup {A} (l : list A) i : nth_error l i = l !! i.
Proof. revert i. induction l as [|a l IH]; intros [|i]; simpl; auto. Qed.

(** Printing a positive integer and reading it back. *)
Lemma int_str n : 0 < n -> isdigit (str n) = true /\ int (str n) = n.
Proof.
  intros Hn. destruct n as [|p|p]; [lia| |lia].
  unfold str. cbn [Z.to_int NilZero.string_of_int].
  pose proof (Unsigned.to_uint_nonnil p) as Hnil.
  assert (Hs : NilZero.string_of_uint (Pos.to_uint p) =
               NilEmpty.string_of_uint (Pos.to_uint p))
    by (destruct (Pos.to_uint p); [congruence|reflexivity..]).
  rewrite Hs. split.
  - pose proof (all_digits_string_of_uint (Pos.to_uint p)) as Ha.
    destruct (Pos.to_uint p); [congruence|exact Ha..].
  - rewrite int_string_of_uint, Unsigned.of_to. reflexivity.
Qed.

(** X11. The number printed beside an option is the number that selects
    it: for every option of a question, the console shows a line made of
    its position counted from 1, a dot and its text, and typing that
    number is a valid answer that is graded on this very option. *)
Theorem number_shown_selects_option q idx i o :
  options q !! i = Some o ->
  In (str (Z.of_nat i + 1) +:+ ". " +:+ o)
    (console_lines (PrintQuestion idx (lower (question q)) (options q))) /\
  option_number (str (Z.of_nat i + 1)) (options q) /\
  verdict_on q (str (Z.of_nat i + 1)) =
    if bool_decide (same_ignoring_case o (answer q)) then VTrue else VFalse.
Proof.
  intros Hi. pose proof (lookup_lt_Some _ _ _ Hi) as Hlt.
  destruct (int_str (Z.of_nat i + 1)) as [Hd Hv]; [lia|].
  assert (Hopt : option_number (str (Z.of_nat i + 1)) (options q))
    by (split; [exact Hd|rewrite Hv; unfold len; lia]).
  split; [|split; [exact Hopt|]].
  - cbn [console_lines]. apply in_or_app. right.
    apply list_elem_of_In. unfold option_lines.
    apply list_elem_of_lookup. exists i.
    now rewrite list_lookup_imap, Hi.
  - destruct (graded_on_named_option q _ Hopt) as (text & Hn & Hg).
    rewrite Hv in Hn. replace (Z.to_nat (Z.of_nat i + 1 - 1)) with i in Hn by lia.
    rewrite nth_error_is_lookup, Hi in Hn. injection Hn as <-. exact Hg.
Qed.

Lemma number_shown_selects_option_witness :
  In (str 2 +:+ ". " +:+ "London")
    (console_lines (PrintQuestion 1 (lower (question Sample.capital))
                      (options Sample.capital))) /\
  option_number (str 2) (options Sample.capital) /\
  verdict_on Sample.capital (str 2) =
    if bool_decide (same_ignoring_case "London" (answer Sample.capital))
    then VTrue else VFalse.
Proof.
  apply (number_shown_selects_option Sample.capital 1 1%nat "London").
  reflexivity.
Defined.

End TriviaMore.


(** * Further properties of the password generator *)
Module PasswordMore.
Import PyStr Password PasswordFacts.

(** ** The helper functions *)

(** X12. The selected character sets are those of the ticked boxes, each
    once, in the order numbers, symbols, upper case, lower case; every
    lookup of the comprehension finds its set. *)
Theorem active_sets_are_the_ticked_ones f :
  get_active_character_sets f =
  (if include_numbers f then [NUMBERS] else []) ++
  (if include_symbols f then [SYMBOLS] else []) ++
  (if include_uppercase_letters f then [UPPERCASE_LETTERS] else []) ++
  (if include_lowercase_letters f then [LOWERCASE_LETTERS] else []).
Proof.
  unfold get_active_character_sets.
  destruct (include_numbers f), (include_symbols f),
    (include_uppercase_letters f), (include_lowercase_letters f); reflexivity.
Qed.

(** X13. The minimum length is 8 whatever is ticked: there are four boxes,
    so the number of selected classes never exceeds the constant it is
    compared with. *)
Theorem min_password_length_is_eight f : get_min_password_length f = 8.
Proof.
  unfold get_min_password_length.
  destruct (include_numbers f), (include_symbols f),
    (include_uppercase_letters f), (include_lowercase_letters f); reflexivity.
Qed.



(** ** [generate_password_with_charsets] outside its contract *)

Lemma generate_result selected_sets length src pw src' :
  selected_sets <> [] ->
  Forall (fun charset => charset <> "") selected_sets ->
  generate_password_with_charsets selected_sets length src = Some (pw, src') ->
  Z.of_nat (String.length pw) = Z.max length (len selected_sets) /\
  (forall charset, In charset selected_sets ->
     exists c, occurs c pw /\ occurs c charset) /\
  (forall c, occurs c pw ->
     exists charset, In charset selected_sets /\ occurs c charset).
Proof.
  intros Hne Hall Hgen.
  destruct (generate_password_with_charsets_spec selected_sets length src Hne Hall)
    as (required & remaining & password & src1 & Hgen' & Hmem & Hlen & Hrem & Hperm).
  rewrite Hgen in Hgen'. injection Hgen' as -> ->.
  assert (Hr : len required = len selected_sets)
    by (unfold len; now rewrite (Forall2_length _ _ _ Hmem)).
  split; [|split].
  - rewrite length_string_of_list, <- (Permutation_length Hperm).
    rewrite length_app, Hlen. unfold len in *. lia.
  - intros charset Hin.
    destruct (required_represented _ _ _ Hmem Hin) as (c & Hc & Ho).
    exists c. split; [|exact Ho].
    unfold occurs. rewrite list_ascii_of_string_of_list_ascii.
    apply (Permutation_in c Hperm). apply in_or_app. now left.
  - intros c Hc. unfold occurs in Hc.
    rewrite list_ascii_of_string_of_list_ascii in Hc.
    apply (Permutation_in c (Permutation_sym Hperm)) in Hc.
    apply in_app_or in Hc as [Hc|Hc].
    + exact (required_from_sets _ _ _ Hmem Hc).
    + apply concat_occurs. rewrite List.Forall_forall in Hrem. now apply Hrem.
Qed.

(** X15. Called with sets that all have characters, the function returns a
    string whose length is the larger of the length asked for and the
    number of sets: asked for fewer characters than there are sets, zero or
    a negative number included, it still returns one character of each
    set. *)
Theorem generated_length_is_at_least_the_sets selected_sets length src :
  selected_sets <> [] ->
  Forall (fun charset => charset <> "") selected_sets ->
  exists pw src',
    generate_password_with_charsets selected_sets length src = Some (pw, src') /\
    Z.of_nat (String.length pw) = Z.max length (len selected_sets).
Proof.
  intros Hne Hall.
  destruct (generate_password_with_charsets_spec selected_sets length src Hne Hall)
    as (required & remaining & password & src1 & Hgen & _).
  exists (string_of_list_ascii password), src1. split; [exact Hgen|].
  exact (proj1 (generate_result _ _ _ _ _ Hne Hall Hgen)).
Qed.

Lemma generated_length_is_at_least_the_sets_witness :
  exists pw src',
    generate_password_with_charsets [NUMBERS; SYMBOLS; "xy"] (-5) Sample.draws =
      Some (pw, src') /\
    Z.of_nat (String.length pw) = Z.max (-5) (len [NUMBERS; SYMBOLS; "xy"]).
Proof.
  apply (generated_length_is_at_least_the_sets [NUMBERS; SYMBOLS; "xy"] (-5)
           Sample.draws).
  - discriminate.
  - repeat (apply List.Forall_cons; [discriminate|]). apply List.Forall_nil.
Defined.

(** X16. Called with no set at all, the function raises when a positive
    length is asked for, since it draws from an empty pool, and returns the
    empty string without a draw otherwise. *)
Theorem generate_without_sets length src :
  generate_password_with_charsets [] length src =
  if 0 <? length then None else Some ("", src).
Proof.
  unfold generate_password_with_charsets, choices. cbn [for_each].
  unfold bind at 1, ret at 1. unfold len. cbn [List.length Z.of_nat].
  rewrite Z.sub_0_r.
  destruct (0 <? length) eqn:Hl.
  - apply Z.ltb_lt in Hl.
    destruct (Z.to_nat length) as [|k] eqn:Hk; [lia|]. reflexivity.
  - apply Z.ltb_ge in Hl.
    replace (Z.to_nat length) with 0%nat by lia. reflexivity.
Qed.

Lemma for_each_choice_raises (selected_sets : list string) src :
  In "" selected_sets ->
  for_each (fun charset => choice (list_ascii_of_string charset))
    selected_sets src = None.
Proof.
  revert src. induction selected_sets as [|x xs IH]; intros src; [intros []|].
  intros [->|Hin]; [reflexivity|].
  cbn [for_each]. unfold bind at 1.
  destruct (choice (list_ascii_of_string x) src) as [[c src1]|]; [|reflexivity].
  unfold bind at 1. now rewrite (IH src1 Hin).
Qed.

(** X17. Called with sets one of which is empty, the function raises,
    whatever the length and the draws: the character required of the empty
    set cannot be chosen. *)
Theorem generate_with_an_empty_set_raises selected_sets length src :
  In "" selected_sets ->
  generate_password_with_charsets selected_sets length src = None.
Proof.
  intros Hin. unfold generate_password_with_charsets. unfold bind at 1.
  now rewrite (for_each_choice_raises _ src Hin).
Qed.

Lemma generate_with_an_empty_set_raises_witness :
  generate_password_with_charsets [NUMBERS; ""; LOWERCASE_LETTERS] 10 Sample.draws
  = None.
Proof.
  apply (generate_with_an_empty_set_raises [NUMBERS; ""; LOWERCASE_LETTERS] 10
           Sample.draws).
  right. now left.
Defined.

(** ** [generate_password] *)

(** A request that ends without a dialog passed every check and stored what
    [generate_password_with_charsets] returned. *)
Lemma generate_password_success f src f' src' :
  generate_password f src = Some ((f', []), src') ->
  acceptable f /\
  exists pw,
    f' = set_generated_password f pw /\
    generate_password_with_charsets (get_active_character_sets f)
      (int (strip (password_length f))) src = Some (pw, src').
Proof.
  rewrite generate_password_checks. cbv zeta.
  rewrite min_password_length_spec.
  pose proof (active_sets_at_most_four f) as H4.
  destruct (bool_decide (strip (password_length f) = "")); [discriminate|].
  destruct (isdigit (strip (password_length f))) eqn:Hd;
    cbn [andb negb]; [|discriminate].
  destruct (0 <? int (strip (password_length f))); cbn [negb]; [|discriminate].
  destruct (_ <? Z.max _ _) eqn:Hmin; [discriminate|].
  destruct (MAX_PASSWORD_LENGTH <? _) eqn:Hmax; [discriminate|].
  destruct (bool_decide (get_active_character_sets f = [])) eqn:He; [discriminate|].
  destruct (_ <? len _); [discriminate|].
  apply Z.ltb_ge in Hmin, Hmax. apply bool_decide_eq_false in He.
  destruct (generate_password_with_charsets _ _ _) as [[pw src1]|] eqn:Hgen;
    [|discriminate].
  intros [= <- <-].
  split; [|now exists pw].
  unfold acceptable, MIN_PASSWORD_LENGTH, MAX_PASSWORD_LENGTH in *.
  split; [exact He|]. split; [exact Hd|lia].
Qed.




(** X19. A password that is stored respects the form: all other fields are
    as they were, the password has the length asked for, it has a character
    of every ticked class, and every character of it belongs to a ticked
    class. With the symbols box empty, for one, it has no punctuation. *)
Theorem stored_password_respects_form f src f' src' :
  generate_password f src = Some ((f', []), src') ->
  f' = set_generated_password f (generated_password f') /\
  Z.of_nat (String.length (generated_password f')) =
    int (strip (password_length f)) /\
  (forall charset, In charset (get_active_character_sets f) ->
     exists c, occurs c (generated_password f') /\ occurs c charset) /\
  (forall c, occurs c (generated_password f') ->
     exists charset, In charset (get_active_character_sets f) /\ occurs c charset).
Proof.
  intros Hg. apply generate_password_success in Hg
    as ((Hne & Hd & Hlo & Hhi) & pw & -> & Hgen).
  cbn [generated_password set_generated_password].
  split; [reflexivity|].
  destruct (generate_result _ _ _ _ _ Hne
              (classes_nonempty _ (active_sets_classes f)) Hgen)
    as (Hlen & Hcls & Halpha).
  split; [|split; assumption].
  rewrite Hlen. pose proof (active_sets_at_most_four f).
  unfold MIN_PASSWORD_LENGTH in *. lia.
Qed.

Lemma stored_password_respects_form_witness :
  exists f' src',
    generate_password (mkForm "12" true false true false "") Sample.draws =
      Some ((f', []), src') /\
    Z.of_nat (String.length (generated_password f')) = 12.
Proof.
  destruct (generate_password (mkForm "12" true false true false "") Sample.draws)
    as [[[f' ds] src']|] eqn:Hg; [|vm_compute in Hg; discriminate Hg].
  assert (Hds : ds = []) by (vm_compute in Hg; now injection Hg as _ <- _).
  subst ds. exists f', src'. split; [reflexivity|].
  exact (proj1 (proj2 (stored_password_respects_form _ _ _ _ Hg))).
Defined.

(** ** The clipboard and the button *)



(** X21. A password that was just stored can be copied: it is not empty,
    so when no window call raises the copy clears the clipboard, puts
    exactly the stored password on it, and reports the success. *)
Theorem generated_password_can_be_copied f src f' src' :
  generate_password f src = Some ((f', []), src') ->
  copy_to_clipboard f' NoFault =
  [ClipboardClear; ClipboardAppend (generated_password f'); Update;
   ShowInfo "Success" SUCCESS_MESSAGE_COPY] /\
  Z.of_nat (String.length (generated_password f')) =
    int (strip (password_length f)).
Proof.
  intros Hg. pose proof (generate_password_success _ _ _ _ Hg)
    as ((Hne & Hd & Hlo & Hhi) & pw & -> & Hgen).
  cbn [generated_password set_generated_password].
  destruct (generate_result _ _ _ _ _ Hne
              (classes_nonempty _ (active_sets_classes f)) Hgen) as (Hlen & _).
  pose proof (active_sets_at_most_four f).
  unfold MIN_PASSWORD_LENGTH in *.
  assert (Hl : Z.of_nat (String.length pw) = int (strip (password_length f)))
    by lia.
  split; [|exact Hl].
  unfold copy_to_clipboard. cbn [generated_password set_generated_password].
  rewrite bool_decide_eq_false_2; [reflexivity|].
  intros ->. simpl in Hl. lia.
Qed.

Lemma generated_password_can_be_copied_witness :
  exists f' src',
    generate_password (mkForm "9" false false false true "") Sample.draws =
      Some ((f', []), src') /\
    copy_to_clipboard f' NoFault =
    [ClipboardClear; ClipboardAppend (generated_password f'); Update;
     ShowInfo "Success" SUCCESS_MESSAGE_COPY].
Proof.
  destruct (generate_password (mkForm "9" false false false true "") Sample.draws)
    as [[[f' ds] src']|] eqn:Hg; [|vm_compute in Hg; discriminate Hg].
  assert (Hds : ds = []) by (vm_compute in Hg; now injection Hg as _ <- _).
  subst ds. exists f', src'. split; [reflexivity|].
  exact (proj1 (generated_password_can_be_copied _ _ _ _ Hg)).
Defined.

(** X22. [update_generate_button_state] disables the button exactly when no
    box is ticked. The dialog that asks to select a character set is shown
    only for a form whose button this function disables: it is reached by
    the return key alone. *)
Theorem button_disabled_when_nothing_ticked f :
  (update_generate_button_state f = ["disabled"] <->
   include_numbers f = false /\ include_symbols f = false /\
   include_uppercase_letters f = false /\ include_lowercase_letters f = false) /\
  (update_generate_button_state f = ["disabled"] \/
   update_generate_button_state f = ["!disabled"]) /\
  (forall src,
      rejected_with ERROR_MESSAGE_NO_CHARSETS f src ->
      update_generate_button_state f = ["disabled"]).
Proof.
  split; [|split].
  - unfold update_generate_button_state, get_active_character_sets.
    destruct (include_numbers f), (include_symbols f),
      (include_uppercase_letters f), (include_lowercase_letters f);
      cbn; split; first [discriminate | tauto | intros (?&?&?&?); discriminate].
  - unfold update_generate_button_state.
    destruct (bool_decide _); cbn [negb]; auto.
  - intros src. unfold rejected_with, update_generate_button_state.
    rewrite generate_password_checks. cbv zeta.
    destruct (bool_decide (strip (password_length f) = "")); [other_message|].
    destruct (negb _); [other_message|].
    destruct (_ <? get_min_password_length f); [other_message|].
    destruct (MAX_PASSWORD_LENGTH <? _); [other_message|].
    destruct (bool_decide (get_active_character_sets f = [])); [reflexivity|].
    destruct (_ <? len _); [other_message|].
    destruct (generate_password_with_charsets _ _ _) as [[pw src']|];
      discriminate.
Qed.

Lemma button_disabled_when_nothing_ticked_witness :
  update_generate_button_state (mkForm "10" false false false false "") =
  ["disabled"].
Proof.
  apply (proj2 (proj2 (button_disabled_when_nothing_ticked
                         (mkForm "10" false false false false ""))) Sample.draws).
  reflexivity.
Defined.

End PasswordMore.
